(** * The editor bridge of [Content/Python/init_unreal.py]

    A shallow embedding of the command bridge: the lock-protected
    [ThreadSafeQueue], the per-request [ExecutionContext], the dispatcher
    [_execute_context], the tick callback [_on_slate_post_tick] and the
    [/execute] handler [_RequestHandler.do_POST].

    Python objects are heap cells addressed by a location, so that the
    identity test [namespace["result"] is not ctx.result] is a comparison of
    locations.  Methods are computations of a state-and-exception monad over
    the interpreter's world.  The payload interpreter [exec], the conversion
    of a string to a float, the rendering [str] of a value, the largest
    timeout a lock takes and the failures of [json.dumps] are what the bridge
    takes from its surroundings; they are the fields of the class [Host]. *)

From Stdlib Require Import Floats.PrimFloat Floats.SpecFloat Floats.FloatOps ZArith.
From stdpp Require Import gmap strings list.

Set Default Proof Using "Type".
#[local] Set Warnings "-register-all".

(** ** ThreadSafeQueue

    Every method body runs under [self._lock], so the methods are atomic with
    respect to each other and an execution of several threads on one queue is
    a sequence of whole method calls.  The state is the list [_items]. *)

Module ThreadSafeQueue.
Section Queue.
Context {A : Type}.

(** [__init__]: [self._items = []]. *)
Definition init : list A := [].

(** [push]: [self._items.append(item)]. *)
Definition push (item : A) (_items : list A) : list A := _items ++ [item].

(** [drain]: [items = self._items[:]], then [self._items.clear()], then
    [return items].  The pair is (returned list, [_items] afterwards). *)
Definition drain (_items : list A) : list A * list A :=
  let items := _items in
  let _items := [] in
  (items, _items).

(** [__len__]: [len(self._items)]. *)
Definition len (_items : list A) : nat := length _items.

(** One call on the queue, as some thread issues it. *)
Inductive op := Push (item : A) | Drain.

(** The calls of [ops] in the order the lock admits them: the lists the
    [drain] calls returned, in call order, and the final [_items]. *)
Fixpoint run (ops : list op) (_items : list A) : list (list A) * list A :=
  match ops with
  | [] => ([], _items)
  | Push item :: ops => run ops (push item _items)
  | Drain :: ops =>
      let '(items, _items) := drain _items in
      let '(batches, final) := run ops _items in
      (items :: batches, final)
  end.

(** The items pushed by [ops], in push order. *)
Fixpoint pushed (ops : list op) : list A :=
  match ops with
  | [] => []
  | Push item :: ops => item :: pushed ops
  | Drain :: ops => pushed ops
  end.

Definition is_drain (o : op) : bool :=
  match o with Drain => true | Push _ => false end.

End Queue.
Arguments op : clear implicits.
End ThreadSafeQueue.

(** ** Python values, exceptions and the host *)

(** The identity of a Python object. *)
Definition loc := nat.

(** The identity of an [ExecutionContext] object. *)
Definition cid := nat.

(** The content of an object: what [json.loads] builds ([None], [bool],
    [int], [float], [str], [list], [dict] with string keys), and a module. *)
Inductive pyval :=
  | PNone
  | PBool (b : bool)
  | PInt (z : Z)
  | PFloat (f : float)
  | PStr (s : string)
  | PList (l : list pyval)
  | PDict (d : gmap string pyval)
  | PModule (name : string).

(** The classes of exception the bridge tells apart.  [NotAnException] is a
    [BaseException] that is no [Exception] ([SystemExit],
    [KeyboardInterrupt], [GeneratorExit]): [except Exception] lets it pass. *)
Inductive exn_class :=
  | AttributeError
  | TypeError
  | ValueError
  | OverflowError
  | OtherException (name : string)
  | NotAnException (name : string).

(** A raised exception.  [exn_text] is what [traceback.format_exc()] prints
    for it below the header line: the frames and the final line. *)
Record pyexn := PyExn { exn_cls : exn_class; exn_text : string }.

(** [isinstance(e, Exception)]. *)
Definition isinstance_Exception (e : pyexn) : bool :=
  match exn_cls e with
  | NotAnException _ => false
  | _ => true
  end.

(** The first line of every [traceback.format_exc()] taken inside an
    [except] block. *)
Definition TRACEBACK_HEADER : string :=
  "Traceback (most recent call last):" +:+ String (Ascii.ascii_of_nat 10) EmptyString.

(** [traceback.format_exc()] while [e] is being handled. *)
Definition format_exc (e : pyexn) : string := TRACEBACK_HEADER +:+ exn_text e.

(** The dict [to_response] builds: [{"success": False, "error": e}] or
    [{"success": True, "result": r}], [r] the result object itself. *)
Inductive response :=
  | Failure (e : string)
  | Success (r : loc).

(** What the bridge takes from its surroundings.
    - [unreal]: the imported module object [unreal];
    - [py_exec script namespace heap]: the builtin [exec(script, namespace)]
      run on the objects of [heap]; it gives the exception raised, if any,
      the namespace dictionary as the payload left it, and the objects as the
      payload left them (the effects of a payload that raises stay); a
      payload is taken to end, and to leave the queues and the attributes of
      contexts alone;
    - [float_of_str]: [float(s)] of a string, [None] for [ValueError];
    - [py_str]: [str(v)];
    - [TIMEOUT_MAX]: the largest timeout a blocking call of [threading]
      takes on the platform, [threading.TIMEOUT_MAX]; with a larger one the
      call raises [OverflowError] instead of blocking;
    - [dumps_raises response heap]: what
      [json.dumps(response, ensure_ascii=False, default=str)] raises on the
      dict [response], read on the objects of [heap], or else what the
      [encode("utf-8")] of its text raises in [_respond]: [TypeError] for a
      dict key that is no [str], [int], [float], [bool] or [None],
      [ValueError] for an object that contains itself, whatever the [str] of
      an object raises, [UnicodeEncodeError] for a lone surrogate; [None]
      when both return. *)
Class Host := {
  unreal : loc;
  py_exec : pyval → gmap string loc → gmap loc pyval →
            option pyexn * gmap string loc * gmap loc pyval;
  float_of_str : string → option float;
  py_str : pyval → string;
  TIMEOUT_MAX : float;
  dumps_raises : response → gmap loc pyval → option pyexn;
}.

(** [float(z)] of an [int]: the nearest binary64 number, ties to even;
    [OverflowError] when that is beyond the largest finite one. *)
Definition float_of_int (z : Z) : pyexn + float :=
  match binary_normalize 53 1024 z 0 false with
  | S754_infinity _ => inl (PyExn OverflowError "int too large to convert to float")
  | sf => inr (SF2Prim sf)
  end.

(** The builtin [float(v)]. *)
Definition py_float `{Host} (v : pyval) : pyexn + float :=
  match v with
  | PFloat f => inr f
  | PInt z => float_of_int z
  | PBool b => inr (if b then 1%float else 0%float)
  | PStr s =>
      match float_of_str s with
      | Some f => inr f
      | None => inl (PyExn ValueError "could not convert string to float")
      end
  | PNone | PList _ | PDict _ | PModule _ =>
      inl (PyExn TypeError "float() argument must be a string or a real number")
  end.

(** [f"{v}"]: a [str] is inserted as it is, anything else through [str]. *)
Definition fmt `{Host} (v : pyval) : string :=
  match v with
  | PStr s => s
  | _ => py_str v
  end.

(** [v == s] for a string literal [s]. *)
Definition py_eq_str (v : pyval) (s : string) : bool :=
  match v with
  | PStr s' => bool_decide (s' = s)
  | _ => false
  end.


(** ** ExecutionContext and the world *)

(** The attributes of an [ExecutionContext].  [params] and [result] name the
    objects they are bound to; [done] is the flag of the [threading.Event]. *)
Record ExecutionContext := Ctx {
  script : pyval;
  params : loc;
  timeout : float;
  result : loc;
  error : option string;
  done : bool;
}.

(** What the dispatcher does that a waiter or a payload can observe, in the
    order it happens: the call [exec(ctx.script, namespace)] for context [i],
    and the call [ctx.done.set()]. *)
Inductive event :=
  | EvExec (i : cid) (script : pyval) (namespace : gmap string loc)
  | EvSet (i : cid).

(** The two lanes, [_editor_queue] and [_game_queue]. *)
Inductive lane := Editor | Game.

(** The state all threads share: the [_items] of both queues (they hold
    references to contexts), the context objects, the other objects, and the
    log of dispatcher events.  The log is no variable of the program; it
    records what happened, so that order and number of calls can be stated. *)
Record world := World {
  editor_queue : list cid;
  game_queue : list cid;
  contexts : gmap cid ExecutionContext;
  heap : gmap loc pyval;
  trace : list event;
}.

Definition queue (q : lane) (w : world) : list cid :=
  match q with
  | Editor => editor_queue w
  | Game => game_queue w
  end.

Definition set_queue (q : lane) (items : list cid) (w : world) : world :=
  match q with
  | Editor => World items (game_queue w) (contexts w) (heap w) (trace w)
  | Game => World (editor_queue w) items (contexts w) (heap w) (trace w)
  end.

Definition set_contexts (m : gmap cid ExecutionContext) (w : world) : world :=
  World (editor_queue w) (game_queue w) m (heap w) (trace w).

Definition set_heap (h : gmap loc pyval) (w : world) : world :=
  World (editor_queue w) (game_queue w) (contexts w) h (trace w).

Definition log_event (ev : event) (w : world) : world :=
  World (editor_queue w) (game_queue w) (contexts w) (heap w) (trace w ++ [ev]).

(** The contexts whose payload the log says was run, in order. *)
Definition executed (tr : list event) : list cid :=
  omap (λ ev, match ev with EvExec i _ _ => Some i | EvSet _ => None end) tr.

(** The contexts whose [done.set()] the log records, in order. *)
Definition signalled (tr : list event) : list cid :=
  omap (λ ev, match ev with EvSet i => Some i | EvExec _ _ _ => None end) tr.

(** How often [x] occurs in [l]. *)
Definition count (x : cid) (l : list cid) : nat :=
  length (filter (λ y, y = x) l).

(** ** The monad of method bodies *)

(** A call returns a value or raises; either way it leaves a world. *)
Inductive outcome (A : Type) :=
  | Return (a : A)
  | Raise (e : pyexn).
Arguments Return {A} a.
Arguments Raise {A} e.

Definition Py (A : Type) : Type := world → outcome A * world.

#[export] Instance Py_ret : MRet Py := λ A a w, (Return a, w).

#[export] Instance Py_bind : MBind Py := λ A B f m w,
  match m w with
  | (Return a, w') => f a w'
  | (Raise e, w') => (Raise e, w')
  end.

(** [raise e]. *)
Definition raise {A} (e : pyexn) : Py A := λ w, (Raise e, w).

(** [try: body / except Exception: handler]. *)
Definition try_except_Exception {A} (body : Py A) (handler : pyexn → Py A) : Py A :=
  λ w,
    match body w with
    | (Raise e, w') =>
        if isinstance_Exception e then handler e w' else (Raise e, w')
    | (Return a, w') => (Return a, w')
    end.

(** [try: body / finally: final]: [final] runs on every way out of [body],
    and the outcome of [body] stands unless [final] raises itself. *)
Definition try_finally {A} (body : Py A) (final : Py unit) : Py A :=
  λ w,
    let '(r, w') := body w in
    match final w' with
    | (Return _, w'') => (r, w'')
    | (Raise e, w'') => (Raise e, w'')
    end.

(** [for x in l: body(x)]. *)
Fixpoint for_each {A} (l : list A) (body : A → Py unit) : Py unit :=
  match l with
  | [] => mret tt
  | x :: l => body x ;; for_each l body
  end.

(** ** Reading and writing the shared objects *)

(** Attribute access on the context [i]: as on any object that is not an
    [ExecutionContext], it raises [AttributeError] when there is none. *)
Definition get_ctx (i : cid) : Py ExecutionContext :=
  λ w,
    match contexts w !! i with
    | Some ctx => (Return ctx, w)
    | None => (Raise (PyExn AttributeError "object has no such attribute"), w)
    end.

(** [ctx.result = r]. *)
Definition set_result (i : cid) (r : loc) : Py unit :=
  λ w,
    let upd ctx := Ctx (script ctx) (params ctx) (timeout ctx) r (error ctx) (done ctx) in
    (Return tt, set_contexts (alter upd i (contexts w)) w).

(** [ctx.error = msg]. *)
Definition set_error (i : cid) (msg : string) : Py unit :=
  λ w,
    let upd ctx :=
      Ctx (script ctx) (params ctx) (timeout ctx) (result ctx) (Some msg) (done ctx) in
    (Return tt, set_contexts (alter upd i (contexts w)) w).

(** [ctx.done.set()]. *)
Definition set_done (i : cid) : Py unit :=
  λ w,
    let upd ctx :=
      Ctx (script ctx) (params ctx) (timeout ctx) (result ctx) (error ctx) true in
    (Return tt, log_event (EvSet i) (set_contexts (alter upd i (contexts w)) w)).

(** A new object with content [v]; its identity is one not in use. *)
Definition new_object (v : pyval) : Py loc :=
  λ w,
    let l := fresh (dom (heap w)) in
    (Return l, set_heap (<[l := v]> (heap w)) w).

(** A new context object with the attributes [ctx]. *)
Definition new_context (ctx : ExecutionContext) : Py cid :=
  λ w,
    let i := fresh (dom (contexts w)) in
    (Return i, set_contexts (<[i := ctx]> (contexts w)) w).

(** The content of the object [l], as a serialiser reads it. *)
Definition read_object (l : loc) : Py (option pyval) :=
  λ w, (Return (heap w !! l), w).

(** [queue.push(i)], [queue.drain()] and [len(queue)] on a lane. *)
Definition queue_push (q : lane) (i : cid) : Py unit :=
  λ w, (Return tt, set_queue q (ThreadSafeQueue.push i (queue q w)) w).

Definition queue_drain (q : lane) : Py (list cid) :=
  λ w,
    let '(items, _items) := ThreadSafeQueue.drain (queue q w) in
    (Return items, set_queue q _items w).

Definition queue_len (q : lane) : Py nat :=
  λ w, (Return (ThreadSafeQueue.len (queue q w)), w).

(** ** ExecutionContext methods *)

Section Bridge.
Context `{Host}.

(** [ExecutionContext(script, params, timeout=timeout)]: the constructor
    binds [result] to a new empty dict, [error] to [None] and [done] to a new
    unset event.  The decoded [params] becomes an object here. *)
Definition new_ExecutionContext (script params : pyval) (timeout : float) : Py cid :=
  p ← new_object params;
  r ← new_object (PDict ∅);
  new_context (Ctx script p timeout r None false).

(** The text [wait] stores when the event was not set in time. *)
Definition timeout_message (t : float) : string :=
  "Execution timed out after " +:+ fmt (PFloat t) +:+ "s".

(** [self.done.wait(timeout=t)], at the moment the call ends, on an event
    whose flag is [flag] then.  With the flag set it returns [True], whatever
    the timeout.  With the flag unset and a timeout above [TIMEOUT_MAX] the
    lock refuses the timeout and the call raises [OverflowError] at once.
    Otherwise it returns [False]: the timeout elapsed first (at once for a
    timeout that is zero, negative or no number).  When the call ends is up
    to the scheduling of threads and to the clock. *)
Definition Event_wait (flag : bool) (t : float) : Py bool :=
  if flag then mret true
  else if PrimFloat.ltb TIMEOUT_MAX t then
    raise (PyExn OverflowError "timeout value is too large")
  else mret false.

(** [wait]: the error is written when [done.wait] returned [False]; the
    method returns [self]. *)
Definition wait (i : cid) : Py cid :=
  ctx ← get_ctx i;
  flag ← Event_wait (done ctx) (timeout ctx);
  (if negb flag then set_error i (timeout_message (timeout ctx))
   else mret tt) ;;
  mret i.

(** Truth value of [self.error]: [None] and the empty string are false. *)
Definition truthy (e : option string) : bool :=
  match e with
  | None => false
  | Some s => negb (bool_decide (s = ""))
  end.

(** [to_response]. *)
Definition to_response (i : cid) : Py response :=
  ctx ← get_ctx i;
  if truthy (error ctx) then mret (Failure (default "" (error ctx)))
  else mret (Success (result ctx)).

(** ** Dispatcher and tick callback *)

(** The call [exec(script, namespace)] made for context [i]. *)
Definition exec (i : cid) (script : pyval) (namespace : gmap string loc)
    : Py (gmap string loc) :=
  λ w,
    let '(raised, namespace', heap') := py_exec script namespace (heap w) in
    let w' := set_heap heap' (log_event (EvExec i script namespace) w) in
    match raised with
    | None => (Return namespace', w')
    | Some e => (Raise e, w')
    end.

(** The namespace [_execute_context] builds for [ctx]. *)
Definition seed_namespace (ctx : ExecutionContext) : gmap string loc :=
  {[ "unreal" := unreal; "params" := params ctx; "result" := result ctx ]}.

(** [_execute_context]. *)
Definition _execute_context (i : cid) : Py unit :=
  ctx ← get_ctx i;
  let namespace := seed_namespace ctx in
  try_finally
    (try_except_Exception
       (namespace ← exec i (script ctx) namespace;
        match namespace !! "result" with
        | Some r =>
            if bool_decide (r ≠ result ctx) then set_result i r else mret tt
        | None => mret tt
        end)
       (λ e, set_error i (format_exc e)))
    (set_done i).

(** [_drain_queue]. *)
Definition _drain_queue (q : lane) : Py unit :=
  items ← queue_drain q;
  for_each items _execute_context.

(** [_on_slate_post_tick]. *)
Definition _on_slate_post_tick : Py unit :=
  _drain_queue Editor ;;
  _drain_queue Game.

(** ** The request handler *)

(** A POST as [do_POST] meets it: the path, and how the [try] block that
    reads and decodes the body ended, the message of the exception it raised
    or the document [json.loads] returned. *)
Record request := Request {
  path : string;
  decoded : string + pyval;
}.

(** What [_respond] sends: the status and the argument of [json.dumps], a
    dict built in the handler or the dict of [to_response] with the content
    its result object has when it is serialised. *)
Inductive reply_body :=
  | Json (v : pyval)
  | Outcome (r : response) (content : option pyval).

Record reply := Reply { status : Z; body : reply_body }.

Definition _VERSION : string := "1.0.0".

(** [do_GET]: [/health] reports the version and [len] of both queues. *)
Definition do_GET (path : string) : Py reply :=
  if bool_decide (path = "/health") then
    editor_queue_size ← queue_len Editor;
    game_queue_size ← queue_len Game;
    mret (Reply 200 (Json (PDict
      {[ "status" := PStr "running";
         "version" := PStr _VERSION;
         "editor_queue_size" := PInt (Z.of_nat editor_queue_size);
         "game_queue_size" := PInt (Z.of_nat game_queue_size) ]})))
  else mret (Reply 404 (Json (PDict {[ "error" := PStr "Not found" ]}))).

(** [body.get(key, default)]; only a dict has the method. *)
Definition dict_get (body : pyval) (key : string) (dflt : pyval) : Py pyval :=
  match body with
  | PDict d => mret (default dflt (d !! key))
  | _ => raise (PyExn AttributeError "object has no attribute 'get'")
  end.

(** [float(v)] as a statement of the handler. *)
Definition float_ (v : pyval) : Py float :=
  match py_float v with
  | inr f => mret f
  | inl e => raise e
  end.

(** The body of a rejection, [{"success": False, "error": msg}]. *)
Definition error_body (msg : string) : reply_body :=
  Json (PDict {[ "success" := PBool false; "error" := PStr msg ]}).

(** How far a handler thread has come: it has replied, or it has pushed the
    context [i] and is about to block in [ctx.wait()]. *)
Inductive progress :=
  | Replied (r : reply)
  | Waiting (i : cid).

(** [do_POST] up to the call [ctx.wait()]. *)
Definition do_POST_until_wait (req : request) : Py progress :=
  if negb (bool_decide (path req = "/execute")) then
    mret (Replied (Reply 404 (Json (PDict {[ "error" := PStr "Not found" ]}))))
  else
    match decoded req with
    | inl e => mret (Replied (Reply 400 (error_body ("Bad request: " +:+ e))))
    | inr body =>
        mode ← dict_get body "mode" (PStr "editor");
        script ← dict_get body "script" (PStr "");
        params ← dict_get body "params" (PDict ∅);
        timeout ← dict_get body "timeout" (PInt 30) ≫= float_;
        if negb (py_eq_str mode "editor" || py_eq_str mode "game") then
          mret (Replied (Reply 400 (error_body
            ("Unknown mode: " +:+ fmt mode +:+ ". Use 'editor' or 'game'."))))
        else
          ctx ← new_ExecutionContext script params timeout;
          (if py_eq_str mode "editor" then queue_push Editor ctx
           else queue_push Game ctx) ;;
          mret (Waiting ctx)
    end.

(** [json.dumps(response, ensure_ascii=False, default=str)] and the
    encoding of its text: they return, or one of them raises and nothing is
    sent. *)
Definition json_dumps (response : response) : Py unit :=
  λ w,
    match dumps_raises response (heap w) with
    | Some e => (Raise e, w)
    | None => (Return tt, w)
    end.

(** [do_POST] from the end of the blocking call in [ctx.wait()] on: the
    rest of [wait], [to_response], and the reply with the serialised dict. *)
Definition do_POST_after_wait (i : cid) : Py reply :=
  wait i ;;
  response ← to_response i;
  json_dumps response ;;
  content ← match response with
            | Success r => read_object r
            | Failure _ => mret None
            end;
  mret (Reply 200 (Outcome response content)).

(** [do_POST] when no other thread runs between its push and its wait. *)
Definition do_POST (req : request) : Py reply :=
  p ← do_POST_until_wait req;
  match p with
  | Replied r => mret r
  | Waiting i => do_POST_after_wait i
  end.

(** ** The threads together *)

(** What can happen next: a handler thread takes a request up to its wait,
    the host ticks, or the blocking call of the handler of context [i] ends
    and the handler runs to its end.  An exception that leaves a handler or
    the callback ends that call; the world it leaves stays.  Which handlers
    are waiting is not recorded:
    [WaitReturns i] may be taken for any [i] at any time, so the runs below
    include all the threads can make, and more. *)
Inductive action :=
  | Post (req : request)
  | Tick
  | WaitReturns (i : cid).

Definition step (a : action) (w : world) : world :=
  match a with
  | Post req => (do_POST_until_wait req w).2
  | Tick => (_on_slate_post_tick w).2
  | WaitReturns i => (do_POST_after_wait i w).2
  end.

Definition steps (l : list action) (w : world) : world :=
  foldl (λ w a, step a w) w l.

(** The world when the module is loaded: both queues empty, no context, the
    module object [unreal], nothing logged. *)
Definition init_world : world :=
  World [] [] ∅ {[ unreal := PModule "unreal" ]} [].

(** The worlds the bridge can be in. *)
Inductive reachable : world → Prop :=
  | reachable_init : reachable init_world
  | reachable_step a w : reachable w → reachable (step a w).

(** ** What a run of the dispatcher leaves behind *)

(** How [_execute_context] ends when [exec] ended with [raised]. *)
Definition dispatch_outcome (raised : option pyexn) : outcome unit :=
  match raised with
  | Some e => if isinstance_Exception e then Return tt else Raise e
  | None => Return tt
  end.

(** The attributes of [ctx] after [_execute_context], when [exec] ended with
    [raised] and left the namespace [namespace']. *)
Definition dispatched (ctx : ExecutionContext) (raised : option pyexn)
    (namespace' : gmap string loc) : ExecutionContext :=
  Ctx (script ctx) (params ctx) (timeout ctx)
    (match raised, namespace' !! "result" with
     | None, Some r => r
     | _, _ => result ctx
     end)
    (match raised with
     | Some e => if isinstance_Exception e then Some (format_exc e) else error ctx
     | None => error ctx
     end)
    true.

(** ** Invariants of the shared state *)

(** [ctx'] is a later state of the object [ctx]: the same script, parameters
    and timeout; a set flag stays set; an error that is there stays there. *)
Definition later_ctx (ctx ctx' : ExecutionContext) : Prop :=
  script ctx' = script ctx ∧ params ctx' = params ctx ∧ timeout ctx' = timeout ctx
  ∧ (done ctx = true → done ctx' = true)
  ∧ (is_Some (error ctx) → is_Some (error ctx'))
  ∧ (truthy (error ctx) = true → truthy (error ctx') = true).

(** Every context of [w] is still there in [w'], in a later state. *)
Definition later_world (w w' : world) : Prop :=
  ∀ i ctx, contexts w !! i = Some ctx →
    ∃ ctx', contexts w' !! i = Some ctx' ∧ later_ctx ctx ctx'.

(** The state is consistent while the contexts [pending] have been drained
    and not yet run: no context is queued or pending twice; what is queued or
    pending is a context whose flag is unset; a context's payload was run and
    its flag was set once when the flag is set and never otherwise; the log
    speaks of contexts only; and no error is the empty string. *)
Record consistent (pending : list cid) (w : world) : Prop := {
  consistent_NoDup : NoDup (pending ++ editor_queue w ++ game_queue w);
  consistent_queued : ∀ i, i ∈ pending ++ editor_queue w ++ game_queue w →
    ∃ ctx, contexts w !! i = Some ctx ∧ done ctx = false;
  consistent_counts : ∀ i ctx, contexts w !! i = Some ctx →
    count i (executed (trace w)) = (if done ctx then 1 else 0)
    ∧ count i (signalled (trace w)) = (if done ctx then 1 else 0);
  consistent_trace : ∀ i, i ∈ executed (trace w) ++ signalled (trace w) →
    is_Some (contexts w !! i);
  consistent_error : ∀ i ctx, contexts w !! i = Some ctx → error ctx ≠ Some "";
}.

End Bridge.

(** ** Worlds that differ in errors only *)

(** The string [do_POST] compares [mode] with to choose a lane. *)
Definition lane_name (q : lane) : string :=
  match q with
  | Editor => "editor"
  | Game => "game"
  end.

(** A context without its error. *)
Definition forget_error (ctx : ExecutionContext) : ExecutionContext :=
  Ctx (script ctx) (params ctx) (timeout ctx) (result ctx) None (done ctx).

(** The same queues, objects and log, and the same contexts but for what
    their [error] attributes hold. *)
Definition same_but_errors (w1 w2 : world) : Prop :=
  editor_queue w1 = editor_queue w2
  ∧ game_queue w1 = game_queue w2
  ∧ heap w1 = heap w2
  ∧ trace w1 = trace w2
  ∧ forget_error <$> contexts w1 = forget_error <$> contexts w2.

(** ** A host to run the definitions on *)

(** An interpreter of four payloads: [result['x']=1+1] stores into the dict
    bound to [result], [result = {'y': 1}] binds [result] to a new dict,
    [raise ValueError('boom')] raises, and [raise SystemExit] exits when
    [exits] is set; any other string does nothing, and what is no string is
    a [TypeError] of [exec]. *)
Definition sample_exec (exits : bool) (script : pyval)
    (namespace : gmap string loc) (heap : gmap loc pyval)
    : option pyexn * gmap string loc * gmap loc pyval :=
  match script with
  | PStr s =>
      if bool_decide (s = "result['x']=1+1") then
        match namespace !! "result" with
        | Some r =>
            let store v :=
              match v with
              | PDict d => PDict (<["x" := PInt 2]> d)
              | _ => v
              end in
            (None, namespace, alter store r heap)
        | None => (Some (PyExn (OtherException "NameError") "NameError"), namespace, heap)
        end
      else if bool_decide (s = "result = {'y': 1}") then
        let l := fresh (dom heap) in
        (None, <["result" := l]> namespace, <[l := PDict {[ "y" := PInt 1 ]}]> heap)
      else if bool_decide (s = "raise ValueError('boom')") then
        (Some (PyExn ValueError "ValueError: boom"), namespace, heap)
      else if exits && bool_decide (s = "raise SystemExit") then
        (Some (PyExn (NotAnException "SystemExit") "SystemExit"), namespace, heap)
      else (None, namespace, heap)
  | _ => (Some (PyExn TypeError "exec() arg 1 must be a string"), namespace, heap)
  end.

Definition sample_str (v : pyval) : string :=
  match v with
  | PNone => "None"
  | PBool true => "True"
  | PBool false => "False"
  | PStr s => s
  | PFloat f => if PrimFloat.eqb f 30 then "30.0" else "<float>"
  | _ => "<object>"
  end.

(** A host whose payloads never exit, and one where [raise SystemExit] does;
    on both a lock takes timeouts up to 9223372036 seconds, and what they
    store serialises. *)
Definition sample_host : Host :=
  {| unreal := 0; py_exec := sample_exec false;
     float_of_str := λ _, None; py_str := sample_str;
     TIMEOUT_MAX := 9223372036; dumps_raises := λ _ _, None |}.

Definition exiting_host : Host :=
  {| unreal := 0; py_exec := sample_exec true;
     float_of_str := λ _, None; py_str := sample_str;
     TIMEOUT_MAX := 9223372036; dumps_raises := λ _ _, None |}.

(** A request for [/execute] whose body decoded to the dict [d]. *)
Definition execute_request (d : gmap string pyval) : request :=
  Request "/execute" (inr (PDict d)).

(** Three requests: a payload that stores into its result, for the default
    lane; one that raises, for the game lane; one that rebinds [result]. *)
Definition store_request : request :=
  execute_request {[ "script" := PStr "result['x']=1+1" ]}.

Definition fault_request : request :=
  execute_request {[ "mode" := PStr "game";
                     "script" := PStr "raise ValueError('boom')" ]}.


(** The world after the first two were posted, context 0 queued on the
    editor lane and context 1 on the game lane, and the world after the third
    alone was posted. *)
Definition sample_world : world :=
  @steps sample_host [Post store_request; Post fault_request] (@init_world sample_host).


(** On the exiting host: a payload that exits queued on the editor lane
    before one that stores, and the raising one on the game lane. *)
Definition exit_request : request :=
  execute_request {[ "script" := PStr "raise SystemExit" ]}.

Definition exit_world : world :=
  @steps exiting_host [Post exit_request; Post store_request; Post fault_request]
    (@init_world exiting_host).

(** [exit_world] after a tick: context 1 was drained with the payload that
    exited and has not run. *)
Definition lost_world : world := @step exiting_host Tick exit_world.

(** On the sample host again: a payload that raises, for the default lane,
    and the world after it was posted between two storing payloads, contexts
    0, 1 and 2 queued on the editor lane in that order. *)
Definition boom_request : request :=
  execute_request {[ "script" := PStr "raise ValueError('boom')" ]}.

Definition fault_world : world :=
  @steps sample_host [Post store_request; Post boom_request; Post store_request]
    (@init_world sample_host).




(** The calls push 1, push 2, drain, push 3, drain, drain. *)
Definition sample_ops : list (ThreadSafeQueue.op nat) :=
  [ThreadSafeQueue.Push 1; ThreadSafeQueue.Push 2; ThreadSafeQueue.Drain;
   ThreadSafeQueue.Push 3; ThreadSafeQueue.Drain; ThreadSafeQueue.Drain].

(** * Properties *)

(** ** ThreadSafeQueue: every push is drained once, in order *)

Section QueueFacts.
Context {A : Type}.
Implicit Types (ops : list (ThreadSafeQueue.op A)) (q : list A).
Import ThreadSafeQueue.

Lemma run_app ops1 ops2 q :
  run (ops1 ++ ops2) q =
  ((run ops1 q).1 ++ (run ops2 (run ops1 q).2).1, (run ops2 (run ops1 q).2).2).
Proof.
  revert q. induction ops1 as [|[item|] ops1 IH]; intros q; simpl.
  - by destruct (run ops2 q).
  - apply IH.
  - rewrite IH. by destruct (run ops1 []).
Qed.

(** Nothing is lost and nothing is made up: what the drains returned,
    followed by what is still queued, is what was there and what was pushed. *)
Lemma run_conserves ops q :
  concat (run ops q).1 ++ (run ops q).2 = q ++ pushed ops.
Proof.
  revert q. induction ops as [|[item|] ops IH]; intros q; simpl.
  - by rewrite app_nil_r.
  - rewrite IH. unfold push. by rewrite <-app_assoc.
  - specialize (IH []). destruct (run ops []) as [bs rest]. simpl in *.
    by rewrite <-app_assoc, IH.
Qed.

Lemma run_length ops q :
  length (run ops q).1 = length (filter (λ o, is_drain o = true) ops).
Proof.
  revert q. induction ops as [|[item|] ops IH]; intros q; [done|..].
  - rewrite filter_cons_False by done. apply IH.
  - rewrite filter_cons_True by done. specialize (IH []).
    cbn [run drain]. destruct (run ops []). simpl in *. by rewrite IH.
Qed.

(** What is queued when a drain comes is in the list the next drain returns. *)
Lemma run_first_drain ops q item :
  item ∈ q → Drain ∈ ops → ∃ b, (run ops q).1 !! 0 = Some b ∧ item ∈ b.
Proof.
  revert q. induction ops as [|[item'|] ops IH]; intros q Hq Hd; simpl.
  - by apply elem_of_nil in Hd.
  - apply IH; [apply elem_of_app; by left|].
    apply elem_of_cons in Hd as [Hd|Hd]; [discriminate|done].
  - destruct (run ops []). simpl. eauto.
Qed.

(** With no push an empty queue stays empty. *)
Lemma run_no_push ops : pushed ops = [] → (run ops []).2 = [].
Proof.
  induction ops as [|[item|] ops IH]; intros Hp; simpl in *; [done..|].
  specialize (IH Hp). by destruct (run ops []).
Qed.

Lemma elem_of_concat_part (bs : list (list A)) j b x :
  bs !! j = Some b → x ∈ b → x ∈ concat bs.
Proof.
  revert j. induction bs as [|b' bs IH]; intros j Hj Hx; [done|].
  simpl. apply elem_of_app. destruct j; simpl in *.
  - injection Hj as ->. by left.
  - right. by eapply IH.
Qed.

Lemma concat_disjoint (bs : list (list A)) j1 j2 b1 b2 x :
  NoDup (concat bs) →
  bs !! j1 = Some b1 → bs !! j2 = Some b2 → x ∈ b1 → x ∈ b2 → j1 = j2.
Proof.
  revert j1 j2. induction bs as [|b bs IH]; intros j1 j2 Hnd H1 H2 Hx1 Hx2.
  - done.
  - simpl in Hnd. apply NoDup_app in Hnd as (Hb & Hdis & Hrest).
    destruct j1 as [|j1], j2 as [|j2]; simpl in *.
    + done.
    + injection H1 as ->. exfalso. eapply Hdis; eauto using elem_of_concat_part.
    + injection H2 as ->. exfalso. eapply Hdis; eauto using elem_of_concat_part.
    + f_equal. by apply IH.
Qed.

Lemma concat_NoDup_part (bs : list (list A)) j b :
  NoDup (concat bs) → bs !! j = Some b → NoDup b.
Proof.
  revert j. induction bs as [|b' bs IH]; intros j Hnd Hj; [done|].
  simpl in Hnd. apply NoDup_app in Hnd as (Hb & _ & Hrest).
  destruct j; simpl in *; [by injection Hj as <-|by eapply IH].
Qed.

(** C1. For every sequence of [push] and [drain] calls on a queue that
    starts empty: the lists the drains returned, one after the other and
    followed by what is still queued, are exactly the pushed items in push
    order; an item pushed before some drain is in the list returned by the
    first drain after its push; when the pushed objects are distinct, no item
    is in the lists of two drains nor twice in one; and after a drain the
    length is zero for as long as nothing is pushed. *)
Theorem drain_returns_each_push_once ops :
  let batches := (run ops init).1 in
  let rest := (run ops init).2 in
  concat batches ++ rest = pushed ops
  ∧ (∀ pre item post,
       ops = pre ++ Push item :: post → Drain ∈ post →
       ∃ b, batches !! length (filter (λ o, is_drain o = true) pre) = Some b ∧ item ∈ b)
  ∧ (NoDup (pushed ops) →
     (∀ j1 j2 b1 b2 item,
        batches !! j1 = Some b1 → batches !! j2 = Some b2 →
        item ∈ b1 → item ∈ b2 → j1 = j2)
     ∧ (∀ j b, batches !! j = Some b → NoDup b))
  ∧ (∀ pre post, ops = pre ++ Drain :: post → pushed post = [] → len rest = 0).
Proof.
  intros batches rest. subst batches rest.
  pose proof (run_conserves ops init) as Hc. simpl in Hc.
  split; [exact Hc|]. split; [|split].
  - intros pre item post -> Hd.
    rewrite run_app. simpl.
    destruct (run_first_drain post (push item (run pre init).2) item) as (b & Hb & Hin);
      [unfold push; set_solver|done|].
    exists b. split; [|done].
    rewrite lookup_app_r by (rewrite run_length; lia).
    rewrite run_length, Nat.sub_diag. exact Hb.
  - intros Hnd. rewrite <-Hc in Hnd. apply NoDup_app in Hnd as (Hnd & _ & _).
    split.
    + intros j1 j2 b1 b2 item. by apply concat_disjoint.
    + intros j b. by apply concat_NoDup_part.
  - intros pre post -> Hp. rewrite run_app. simpl.
    pose proof (run_no_push post Hp) as Hr.
    destruct (run post []) as [bs r]. simpl in *. by rewrite Hr.
Qed.

End QueueFacts.

Lemma drain_returns_each_push_once_witness :
  (ThreadSafeQueue.run sample_ops ThreadSafeQueue.init).1 = [[1; 2]; [3]; []]
  ∧ (∃ b, (ThreadSafeQueue.run sample_ops ThreadSafeQueue.init).1 !! 1 = Some b ∧ 3 ∈ b)
  ∧ ThreadSafeQueue.len (ThreadSafeQueue.run sample_ops ThreadSafeQueue.init).2 = 0.
Proof.
  split; [reflexivity|]. split.
  - exact (proj1 (proj2 (drain_returns_each_push_once sample_ops))
      [ThreadSafeQueue.Push 1; ThreadSafeQueue.Push 2; ThreadSafeQueue.Drain] 3
      [ThreadSafeQueue.Drain; ThreadSafeQueue.Drain] eq_refl (list_elem_of_here _ _)).
  - exact (proj2 (proj2 (proj2 (drain_returns_each_push_once sample_ops)))
      [ThreadSafeQueue.Push 1; ThreadSafeQueue.Push 2; ThreadSafeQueue.Drain;
       ThreadSafeQueue.Push 3; ThreadSafeQueue.Drain] [] eq_refl eq_refl).
Defined.

(** ** The dispatcher, step by step *)

Section BridgeFacts.
Context `{Host}.
Implicit Types (w : world) (i : cid) (ctx : ExecutionContext).

Lemma alter_lookup_insert {V} (f : V → V) (m : gmap cid V) i x :
  m !! i = Some x → alter f i m = <[i := f x]> m.
Proof.
  intros Hx. apply map_eq. intros j. destruct (decide (i = j)) as [->|Hne].
  - by rewrite lookup_alter_eq, lookup_insert_eq, Hx.
  - by rewrite lookup_alter_ne, lookup_insert_ne.
Qed.

(** One run of [_execute_context], in one equation. *)
Lemma execute_context_run w i ctx raised namespace' heap' :
  contexts w !! i = Some ctx →
  py_exec (script ctx) (seed_namespace ctx) (heap w) = (raised, namespace', heap') →
  _execute_context i w =
    (dispatch_outcome raised,
     World (editor_queue w) (game_queue w)
       (<[i := dispatched ctx raised namespace']> (contexts w)) heap'
       (trace w ++ [EvExec i (script ctx) (seed_namespace ctx); EvSet i])).
Proof.
  intros Hctx Hexec.
  unfold _execute_context, mbind, Py_bind, get_ctx. rewrite Hctx.
  unfold try_finally, try_except_Exception, exec. rewrite Hexec.
  unfold dispatch_outcome, dispatched.
  destruct raised as [e|].
  - destruct (isinstance_Exception e); simpl.
    + unfold set_contexts, log_event; simpl. f_equal. f_equal.
      * rewrite (alter_lookup_insert _ _ i ctx Hctx).
        erewrite alter_lookup_insert by apply lookup_insert_eq.
        by rewrite insert_insert_eq.
      * by rewrite <-app_assoc.
    + unfold set_contexts, log_event; simpl. f_equal. f_equal.
      * by rewrite (alter_lookup_insert _ _ i ctx Hctx).
      * by rewrite <-app_assoc.
  - destruct (namespace' !! "result") as [r|] eqn:Hr; simpl.
    + case_bool_decide as Hne; simpl.
      * unfold set_contexts, log_event; simpl. f_equal. f_equal.
        -- rewrite (alter_lookup_insert _ _ i ctx Hctx).
           erewrite alter_lookup_insert by apply lookup_insert_eq.
           by rewrite insert_insert_eq.
        -- by rewrite <-app_assoc.
      * assert (r = result ctx) as -> by (destruct (decide (r = result ctx)); tauto).
        unfold set_contexts, log_event; simpl. f_equal. f_equal.
        -- by rewrite (alter_lookup_insert _ _ i ctx Hctx).
        -- by rewrite <-app_assoc.
    + unfold set_contexts, log_event; simpl. f_equal. f_equal.
      * by rewrite (alter_lookup_insert _ _ i ctx Hctx).
      * by rewrite <-app_assoc.
Qed.

(** When [i] is no context, [_execute_context] raises at once. *)
Lemma execute_context_missing w i :
  contexts w !! i = None →
  ∃ e, _execute_context i w = (Raise e, w).
Proof.
  intros Hctx. unfold _execute_context, mbind, Py_bind, get_ctx.
  rewrite Hctx. eauto.
Qed.

(** Either [i] is no context and the call raises at once, or the call is
    the run of [execute_context_run]. *)
Lemma execute_context_cases w i :
  (contexts w !! i = None ∧ ∃ e, _execute_context i w = (Raise e, w))
  ∨ (∃ ctx raised namespace' heap',
       contexts w !! i = Some ctx
       ∧ py_exec (script ctx) (seed_namespace ctx) (heap w) = (raised, namespace', heap')
       ∧ _execute_context i w =
           (dispatch_outcome raised,
            World (editor_queue w) (game_queue w)
              (<[i := dispatched ctx raised namespace']> (contexts w)) heap'
              (trace w ++ [EvExec i (script ctx) (seed_namespace ctx); EvSet i]))).
Proof.
  destruct (contexts w !! i) as [ctx|] eqn:Hctx.
  - right.
    destruct (py_exec (script ctx) (seed_namespace ctx) (heap w))
      as [[raised namespace'] heap'] eqn:Hexec.
    exists ctx, raised, namespace', heap'. eauto using execute_context_run.
  - left. eauto using execute_context_missing.
Qed.

(** *** The log *)

Lemma executed_app tr1 tr2 : executed (tr1 ++ tr2) = executed tr1 ++ executed tr2.
Proof. apply omap_app. Qed.

Lemma signalled_app tr1 tr2 : signalled (tr1 ++ tr2) = signalled tr1 ++ signalled tr2.
Proof. apply omap_app. Qed.

Lemma count_app x l1 l2 : count x (l1 ++ l2) = count x l1 + count x l2.
Proof. unfold count. by rewrite filter_app, length_app. Qed.

Lemma count_singleton x y : count x [y] = if decide (y = x) then 1 else 0.
Proof.
  unfold count. case_decide.
  - by rewrite filter_cons_True.
  - by rewrite filter_cons_False.
Qed.

Lemma count_zero x l : count x l = 0 ↔ x ∉ l.
Proof.
  unfold count. induction l as [|y l IH]; [by split; [intros _ ?%elem_of_nil|]|].
  destruct (decide (y = x)) as [->|Hne].
  - rewrite filter_cons_True by done. simpl. split; [done|].
    intros Hn. exfalso. apply Hn. by left.
  - rewrite filter_cons_False by done. rewrite IH.
    rewrite not_elem_of_cons. split; [by intros ?; split; [congruence|]|by intros [_ ?]].
Qed.

(** *** The loop of [_drain_queue] *)

Lemma for_each_cons {A} (x : A) l (body : A → Py unit) w :
  for_each (x :: l) body w =
  match body x w with
  | (Return _, w') => for_each l body w'
  | (Raise e, w') => (Raise e, w')
  end.
Proof. done. Qed.

(** The loop runs the payloads of its list in order: of all of it when it
    returns, of a first part when an exception ends it.  It leaves the queues
    as they are. *)
Lemma for_each_executed items w :
  let r := for_each items _execute_context w in
  editor_queue r.2 = editor_queue w ∧ game_queue r.2 = game_queue w
  ∧ ∃ k, executed (trace r.2) = executed (trace w) ++ take k items
         ∧ (r.1 = Return tt → k = length items).
Proof.
  revert w. induction items as [|i items IH]; intros w; simpl.
  - repeat split; try done. exists 0. by rewrite app_nil_r.
  - change (for_each (i :: items) _execute_context w) with
      ((_execute_context i ;; for_each items _execute_context) w).
    unfold mbind, Py_bind.
    destruct (execute_context_cases w i)
      as [(_ & e & ->)|(ctx & raised & ns' & h' & _ & _ & ->)].
    + repeat split; try done. exists 0. by rewrite app_nil_r.
    + destruct (dispatch_outcome raised) as [[]|e].
      * match goal with |- context [for_each items _ ?w1] =>
          destruct (IH w1) as (He & Hg & k & Hk & Hret) end.
        simpl in *. rewrite He, Hg. repeat split; try done.
        exists (S k). simpl. split.
        -- rewrite Hk, executed_app. simpl. by rewrite <-app_assoc.
        -- intros Hr. by rewrite Hret.
      * simpl. repeat split; try done. exists 1. split; [|done].
        rewrite executed_app. simpl. by rewrite take_0.
Qed.

(** *** Consistency is kept *)

Lemma format_exc_nonempty e : format_exc e ≠ "".
Proof. done. Qed.

Lemma timeout_message_nonempty t : timeout_message t ≠ "".
Proof. done. Qed.

Lemma consistent_drop i pending w : consistent (i :: pending) w → consistent pending w.
Proof.
  intros [Hnd Hq Hc Ht He]. split; try done.
  - by apply NoDup_cons in Hnd as [_ ?].
  - intros j Hj. apply Hq. by right.
Qed.

Lemma consistent_drop_all pending w : consistent pending w → consistent [] w.
Proof. induction pending; eauto using consistent_drop. Qed.

(** Running the first pending context leaves the rest pending. *)
Lemma execute_context_consistent i pending w :
  consistent (i :: pending) w → consistent pending (_execute_context i w).2.
Proof.
  intros Hw. pose proof Hw as [Hnd Hq Hc Ht He].
  destruct (Hq i) as (ctx & Hctx & Hdone); [by left|].
  destruct (py_exec (script ctx) (seed_namespace ctx) (heap w))
    as [[raised namespace'] heap'] eqn:Hexec.
  rewrite (execute_context_run w i ctx raised namespace' heap' Hctx Hexec). simpl.
  apply NoDup_cons in Hnd as [Hi Hnd].
  destruct (Hc i ctx Hctx) as [Hce Hcs]. rewrite Hdone in Hce, Hcs.
  split; simpl.
  - done.
  - intros j Hj. assert (i ≠ j) by (intros ->; done).
    rewrite lookup_insert_ne by done. apply Hq. by right.
  - intros j ctx' Hj. rewrite executed_app, signalled_app, !count_app. simpl.
    rewrite !count_singleton.
    destruct (decide (i = j)) as [<-|Hne].
    + rewrite lookup_insert_eq in Hj. injection Hj as <-. simpl.
      by rewrite Hce, Hcs.
    + rewrite lookup_insert_ne in Hj by done.
      destruct (Hc j ctx' Hj) as [-> ->]. split; lia.
  - intros j. rewrite executed_app, signalled_app. simpl.
    destruct (decide (i = j)) as [<-|Hne].
    + intros _. rewrite lookup_insert_eq. eauto.
    + rewrite lookup_insert_ne by done. intros Hj. apply Ht.
      rewrite !elem_of_app, !list_elem_of_singleton in Hj. rewrite elem_of_app.
      destruct Hj as [[?|?]|[?|?]]; auto; congruence.
  - intros j ctx' Hj. destruct (decide (i = j)) as [<-|Hne].
    + rewrite lookup_insert_eq in Hj. injection Hj as <-. simpl.
      destruct raised as [e|]; [destruct (isinstance_Exception e)|];
        [by intros [= ?]|eauto..].
    + rewrite lookup_insert_ne in Hj by done. eauto.
Qed.

(** After the loop nothing is pending, however the loop ended. *)
Lemma for_each_consistent items w :
  consistent items w → consistent [] (for_each items _execute_context w).2.
Proof.
  revert w. induction items as [|i items IH]; intros w Hw; [done|].
  rewrite for_each_cons.
  pose proof (execute_context_consistent i items w Hw) as Hw1.
  destruct (_execute_context i w) as [[[]|e] w1]; simpl in *.
  - by apply IH.
  - by eapply consistent_drop_all.
Qed.






Lemma drain_consistent q w :
  consistent [] w → consistent (queue q w) (set_queue q [] w).
Proof.
  intros [Hnd Hq Hc Ht He]. simpl in *.
  assert (Hperm : editor_queue w ++ game_queue w
                  ≡ₚ queue q w ++ editor_queue (set_queue q [] w)
                     ++ game_queue (set_queue q [] w)).
  { destruct q; simpl; [done|]. by rewrite app_nil_r, Permutation_app_comm. }
  split; try done.
  - by rewrite <-Hperm.
  - intros i Hi. rewrite <-Hperm in Hi. destruct q; by apply Hq.
  - by destruct q.
  - by destruct q.
  - by destruct q.
Qed.

Lemma drain_queue_run q w :
  _drain_queue q w = for_each (queue q w) _execute_context (set_queue q [] w).
Proof. done. Qed.

Lemma drain_queue_consistent q w :
  consistent [] w → consistent [] (_drain_queue q w).2.
Proof.
  intros Hw. rewrite drain_queue_run.
  by apply for_each_consistent, drain_consistent.
Qed.

Lemma tick_run w :
  _on_slate_post_tick w =
  match _drain_queue Editor w with
  | (Return _, w') => _drain_queue Game w'
  | (Raise e, w') => (Raise e, w')
  end.
Proof. done. Qed.

Lemma tick_consistent w :
  consistent [] w → consistent [] (_on_slate_post_tick w).2.
Proof.
  intros Hw. rewrite tick_run.
  pose proof (drain_queue_consistent Editor w Hw) as Hw1.
  destruct (_drain_queue Editor w) as [[[]|e] w1]; simpl in *; [|done].
  by apply drain_queue_consistent.
Qed.

(** *** The handler *)

Lemma new_ExecutionContext_run script params t w :
  new_ExecutionContext script params t w =
  let p := fresh (dom (heap w)) in
  let r := fresh (dom (<[p := params]> (heap w))) in
  let i := fresh (dom (contexts w)) in
  (Return i,
   World (editor_queue w) (game_queue w)
     (<[i := Ctx script p t r None false]> (contexts w))
     (<[r := PDict ∅]> (<[p := params]> (heap w))) (trace w)).
Proof. done. Qed.

(** The world after a request was accepted for lane [q]. *)
Lemma accepted_world q script params t w :
  let i := fresh (dom (contexts w)) in
  let w1 := (new_ExecutionContext script params t w).2 in
  let w' := set_queue q (ThreadSafeQueue.push i (queue q w1)) w1 in
  queue q w' = queue q w ++ [i]
  ∧ (∀ q', q' ≠ q → queue q' w' = queue q' w)
  ∧ contexts w' = <[i := Ctx script (fresh (dom (heap w))) t
                      (fresh (dom (<[fresh (dom (heap w)) := params]> (heap w))))
                      None false]> (contexts w)
  ∧ trace w' = trace w
  ∧ contexts w !! i = None.
Proof.
  rewrite new_ExecutionContext_run. simpl.
  split; [by destruct q|]. split; [by intros [] ?; destruct q|].
  split; [by destruct q|]. split; [by destruct q|].
  apply not_elem_of_dom, is_fresh.
Qed.

(** [do_POST] either leaves the world as it found it, replying or raising
    before it made a context, or it makes a context and pushes it on a lane. *)
Lemma post_cases req w :
  (∃ out, do_POST_until_wait req w = (out, w) ∧ ∀ i, out ≠ Return (Waiting i))
  ∨ (∃ q script params t,
       let i := fresh (dom (contexts w)) in
       let w1 := (new_ExecutionContext script params t w).2 in
       do_POST_until_wait req w =
         (Return (Waiting i), set_queue q (ThreadSafeQueue.push i (queue q w1)) w1)).
Proof.
  unfold do_POST_until_wait.
  case_bool_decide as Hpath; simpl; [|left; eauto].
  destruct (decoded req) as [e|body]; [left; eauto|].
  destruct body as [| | | | | |d|]; try (left; eexists; split; [reflexivity|done]).
  unfold mbind, Py_bind, dict_get, float_. simpl.
  destruct (py_float (default (PInt 30) (d !! "timeout"))) as [e|t];
    [left; eexists; split; [reflexivity|done]|].
  simpl.
  destruct (py_eq_str (default (PStr "editor") (d !! "mode")) "editor") eqn:He; simpl.
  - right. exists Editor, (default (PStr "") (d !! "script")),
      (default (PDict ∅) (d !! "params")), t. done.
  - destruct (py_eq_str (default (PStr "editor") (d !! "mode")) "game") eqn:Hg; simpl.
    + right. exists Game, (default (PStr "") (d !! "script")),
        (default (PDict ∅) (d !! "params")), t. done.
    + left. eauto.
Qed.

Lemma post_consistent req w :
  consistent [] w → consistent [] (do_POST_until_wait req w).2.
Proof.
  intros Hw. destruct (post_cases req w) as [(out & -> & _)|(q & sc & pa & t & ->)];
    [done|].
  destruct (accepted_world q sc pa t w) as (Hq & Hq' & Hc & Ht & Hfresh).
  set (i := fresh (dom (contexts w))) in *.
  set (w' := set_queue q _ _) in *. simpl. clearbody w' i.
  destruct Hw as [Hnd Hqd Hcn Htr Her]. simpl in *.
  assert (Hi : i ∉ editor_queue w ++ game_queue w).
  { intros Hin. destruct (Hqd i Hin) as (ctx & Hctx & _). congruence. }
  assert (Hperm : editor_queue w' ++ game_queue w' ≡ₚ i :: editor_queue w ++ game_queue w).
  { destruct q.
    - change (editor_queue w') with (queue Editor w').
      change (game_queue w') with (queue Game w').
      rewrite Hq, (Hq' Game) by done. simpl.
      rewrite <-app_assoc. simpl. by rewrite <-Permutation_middle.
    - change (editor_queue w') with (queue Editor w').
      change (game_queue w') with (queue Game w').
      rewrite Hq, (Hq' Editor) by done. simpl.
      by rewrite app_assoc, <-Permutation_cons_append. }
  split; simpl.
  - rewrite Hperm. by apply NoDup_cons.
  - intros j Hj. rewrite Hperm, Hc in *. apply elem_of_cons in Hj as [->|Hj].
    + rewrite lookup_insert_eq. eauto.
    + rewrite lookup_insert_ne by (intros <-; done). by apply Hqd.
  - intros j ctx. rewrite Hc, Ht. destruct (decide (i = j)) as [<-|Hne].
    + rewrite lookup_insert_eq. intros [= <-]. simpl.
      split; apply count_zero; intros Hin; apply (is_Some_None (A := ExecutionContext));
        rewrite <-Hfresh; apply Htr, elem_of_app; auto.
    + rewrite lookup_insert_ne by done. apply Hcn.
  - intros j. rewrite Hc, Ht. intros Hj. destruct (decide (i = j)) as [<-|Hne].
    + rewrite lookup_insert_eq. eauto.
    + rewrite lookup_insert_ne by done. by apply Htr.
  - intros j ctx. rewrite Hc. destruct (decide (i = j)) as [<-|Hne].
    + rewrite lookup_insert_eq. by intros [= <-].
    + rewrite lookup_insert_ne by done. apply Her.
Qed.

(** [wait] and the reply after it touch the error of context [i] and
    nothing else. *)
Lemma wait_run i w :
  wait i w =
  match contexts w !! i with
  | None => (Raise (PyExn AttributeError "object has no such attribute"), w)
  | Some ctx =>
      if done ctx then (Return i, w)
      else if PrimFloat.ltb TIMEOUT_MAX (timeout ctx) then
        (Raise (PyExn OverflowError "timeout value is too large"), w)
      else (Return i,
            set_contexts (<[i := Ctx (script ctx) (params ctx) (timeout ctx) (result ctx)
                                  (Some (timeout_message (timeout ctx))) false]>
                            (contexts w)) w)
  end.
Proof.
  unfold wait, mbind, Py_bind, get_ctx.
  destruct (contexts w !! i) as [ctx|] eqn:Hctx; [|done].
  unfold Event_wait. destruct (done ctx) eqn:Hd; simpl; [done|].
  destruct (PrimFloat.ltb TIMEOUT_MAX (timeout ctx)); simpl; [done|].
  unfold set_error. by rewrite (alter_lookup_insert _ _ i ctx Hctx), Hd.
Qed.

Lemma to_response_world i w : (to_response i w).2 = w.
Proof.
  unfold to_response, mbind, Py_bind, get_ctx.
  destruct (contexts w !! i) as [ctx|]; [|done].
  by destruct (truthy (error ctx)).
Qed.

Lemma json_dumps_world response w : (json_dumps response w).2 = w.
Proof. unfold json_dumps. by destruct (dumps_raises response (heap w)). Qed.

Lemma after_wait_world i w : (do_POST_after_wait i w).2 = (wait i w).2.
Proof.
  unfold do_POST_after_wait, mbind at 1, Py_bind at 1.
  destruct (wait i w) as [[?|e] w1]; [|done]. simpl.
  unfold mbind at 1, Py_bind at 1. pose proof (to_response_world i w1) as Hr.
  destruct (to_response i w1) as [[resp|e] w2]; simpl in *; subst; [|done].
  unfold mbind at 1, Py_bind at 1. pose proof (json_dumps_world resp w1) as Hj.
  destruct (json_dumps resp w1) as [[[]|e] w2]; simpl in *; subst; [|done].
  by destruct resp.
Qed.

Lemma wait_consistent i w : consistent [] w → consistent [] (wait i w).2.
Proof.
  intros Hw. rewrite wait_run.
  destruct (contexts w !! i) as [ctx|] eqn:Hctx; [|done].
  destruct (done ctx) eqn:Hd; [done|].
  destruct (PrimFloat.ltb TIMEOUT_MAX (timeout ctx)); [done|].
  destruct Hw as [Hnd Hq Hc Ht He]. split; simpl in *.
  - done.
  - intros j Hj. destruct (decide (i = j)) as [<-|Hne].
    + rewrite lookup_insert_eq. eauto.
    + rewrite lookup_insert_ne by done. by apply Hq.
  - intros j ctx'. destruct (decide (i = j)) as [<-|Hne].
    + rewrite lookup_insert_eq. intros [= <-]. simpl.
      specialize (Hc i ctx Hctx). by rewrite Hd in Hc.
    + rewrite lookup_insert_ne by done. apply Hc.
  - intros j Hj. destruct (decide (i = j)) as [<-|Hne].
    + rewrite lookup_insert_eq. eauto.
    + rewrite lookup_insert_ne by done. by apply Ht.
  - intros j ctx'. destruct (decide (i = j)) as [<-|Hne].
    + rewrite lookup_insert_eq. intros [= <-]. simpl. by intros [= ?].
    + rewrite lookup_insert_ne by done. apply He.
Qed.

Lemma init_consistent : consistent [] init_world.
Proof.
  split; simpl.
  - constructor.
  - by intros i ?%elem_of_nil.
  - by intros i ctx ?%lookup_empty_Some.
  - by intros i ?%elem_of_nil.
  - by intros i ctx ?%lookup_empty_Some.
Qed.

Lemma step_consistent a w : consistent [] w → consistent [] (step a w).
Proof.
  destruct a as [req| |i]; simpl.
  - apply post_consistent.
  - apply tick_consistent.
  - rewrite after_wait_world. apply wait_consistent.
Qed.

(** Every world the bridge can be in is consistent, with nothing pending. *)
Lemma reachable_consistent w : reachable w → consistent [] w.
Proof. induction 1; eauto using init_consistent, step_consistent. Qed.

(** *** Contexts only move forward *)

Lemma later_ctx_refl ctx : later_ctx ctx ctx.
Proof. by repeat split. Qed.

Lemma later_ctx_trans ctx1 ctx2 ctx3 :
  later_ctx ctx1 ctx2 → later_ctx ctx2 ctx3 → later_ctx ctx1 ctx3.
Proof.
  intros (?&?&?&?&?&?) (?&?&?&?&?&?). repeat split; try congruence; auto.
Qed.

Lemma later_world_refl w : later_world w w.
Proof. intros i ctx Hctx. eauto using later_ctx_refl. Qed.

Lemma later_world_trans w1 w2 w3 :
  later_world w1 w2 → later_world w2 w3 → later_world w1 w3.
Proof.
  intros H12 H23 i ctx Hctx.
  destruct (H12 i ctx Hctx) as (ctx2 & Hctx2 & Hl2).
  destruct (H23 i ctx2 Hctx2) as (ctx3 & Hctx3 & Hl3).
  eauto using later_ctx_trans.
Qed.

Lemma later_world_contexts w w' : contexts w' = contexts w → later_world w w'.
Proof. intros Heq i ctx Hctx. rewrite Heq. eauto using later_ctx_refl. Qed.

(** Replacing a context by a later state of it, or adding one. *)
Lemma later_world_insert w w' i ctx' :
  contexts w' = <[i := ctx']> (contexts w) →
  (∀ ctx, contexts w !! i = Some ctx → later_ctx ctx ctx') →
  later_world w w'.
Proof.
  intros Heq Hl j ctx Hctx. rewrite Heq. destruct (decide (i = j)) as [<-|Hne].
  - rewrite lookup_insert_eq. eauto.
  - rewrite lookup_insert_ne by done. eauto using later_ctx_refl.
Qed.

Lemma dispatched_later ctx raised namespace' :
  later_ctx ctx (dispatched ctx raised namespace').
Proof.
  repeat split; simpl; try done.
  - destruct raised as [e|]; [destruct (isinstance_Exception e)|]; eauto.
  - destruct raised as [e|]; [destruct (isinstance_Exception e)|]; eauto.
Qed.

Lemma execute_context_later w i : later_world w (_execute_context i w).2.
Proof.
  destruct (execute_context_cases w i)
    as [(_ & e & ->)|(ctx & raised & ns' & h' & Hctx & _ & ->)].
  - apply later_world_refl.
  - eapply later_world_insert; [done|]. simpl. intros ctx0 Hctx0.
    assert (ctx0 = ctx) as -> by congruence. apply dispatched_later.
Qed.

Lemma for_each_later items w : later_world w (for_each items _execute_context w).2.
Proof.
  revert w. induction items as [|i items IH]; intros w; [apply later_world_refl|].
  rewrite for_each_cons. pose proof (execute_context_later w i) as Hl.
  destruct (_execute_context i w) as [[[]|e] w1]; simpl in *; [|done].
  eauto using later_world_trans.
Qed.

Lemma drain_queue_later q w : later_world w (_drain_queue q w).2.
Proof.
  rewrite drain_queue_run. eapply later_world_trans; [|apply for_each_later].
  apply later_world_contexts. by destruct q.
Qed.

Lemma tick_later w : later_world w (_on_slate_post_tick w).2.
Proof.
  rewrite tick_run. pose proof (drain_queue_later Editor w) as Hl.
  destruct (_drain_queue Editor w) as [[[]|e] w1]; simpl in *; [|done].
  eauto using later_world_trans, drain_queue_later.
Qed.

Lemma post_later req w : later_world w (do_POST_until_wait req w).2.
Proof.
  destruct (post_cases req w) as [(out & -> & _)|(q & sc & pa & t & ->)];
    [apply later_world_refl|].
  destruct (accepted_world q sc pa t w) as (_ & _ & Hc & _ & Hfresh).
  eapply later_world_insert; [exact Hc|]. intros ctx Hctx. congruence.
Qed.

Lemma wait_later i w : later_world w (wait i w).2.
Proof.
  rewrite wait_run. destruct (contexts w !! i) as [ctx|] eqn:Hctx;
    [|apply later_world_refl].
  destruct (done ctx) eqn:Hd; [apply later_world_refl|].
  destruct (PrimFloat.ltb TIMEOUT_MAX (timeout ctx)); [apply later_world_refl|].
  eapply later_world_insert; [done|]. intros ctx0 Hctx0.
  assert (ctx0 = ctx) as -> by congruence.
  repeat split; simpl; try done; eauto.
Qed.

Lemma step_later a w : later_world w (step a w).
Proof.
  destruct a as [req| |i]; simpl.
  - apply post_later.
  - apply tick_later.
  - rewrite after_wait_world. apply wait_later.
Qed.

Lemma steps_later l w : later_world w (steps l w).
Proof.
  revert w. induction l as [|a l IH]; intros w; [apply later_world_refl|].
  simpl. eauto using later_world_trans, step_later.
Qed.

Lemma steps_reachable l w : reachable w → reachable (steps l w).
Proof.
  revert w. induction l as [|a l IH]; intros w Hw; [done|].
  simpl. apply IH. by constructor.
Qed.

(** *** One drain, one tick *)

Lemma for_each_queues items w :
  editor_queue (for_each items _execute_context w).2 = editor_queue w
  ∧ game_queue (for_each items _execute_context w).2 = game_queue w.
Proof. destruct (for_each_executed items w) as (? & ? & _). done. Qed.



End BridgeFacts.

(** ** The dispatcher's promises *)

Section Dispatcher.
Context `{Host}.
Implicit Types (w : world) (i : cid) (ctx : ExecutionContext).

(** C2. For a context [i] of any world: however [exec] ends, returning,
    raising an [Exception] or raising past the handler, [_execute_context]
    ends with the flag [done] of [i] set and has called [done.set()] once;
    no step of any thread resets a flag that is set; and in every world the
    bridge can reach, the payload of [i] was run and its flag was set once if
    the flag is set and never otherwise. *)
Theorem done_is_set_exactly_once w i ctx :
  contexts w !! i = Some ctx →
  (∃ ctx', contexts (_execute_context i w).2 !! i = Some ctx' ∧ done ctx' = true
           ∧ signalled (trace (_execute_context i w).2) = signalled (trace w) ++ [i])
  ∧ (∀ a, ∃ ctx', contexts (step a w) !! i = Some ctx'
                  ∧ (done ctx = true → done ctx' = true))
  ∧ (reachable w →
     count i (executed (trace w)) = (if done ctx then 1 else 0)
     ∧ count i (signalled (trace w)) = (if done ctx then 1 else 0)).
Proof.
  intros Hctx. split; [|split].
  - destruct (py_exec (script ctx) (seed_namespace ctx) (heap w))
      as [[raised namespace'] heap'] eqn:Hexec.
    rewrite (execute_context_run w i ctx raised namespace' heap' Hctx Hexec). simpl.
    eexists. rewrite lookup_insert_eq. split; [done|]. split; [done|].
    by rewrite signalled_app.
  - intros a. destruct (step_later a w i ctx Hctx) as (ctx' & Hctx' & Hl).
    exists ctx'. split; [done|]. apply Hl.
  - intros Hw. by apply (consistent_counts _ _ (reachable_consistent w Hw)).
Qed.



(** X4. When the payload of context [i] raises a [BaseException] that is no
    [Exception], the handler does not take it: [_execute_context] sets the
    flag, leaves the error as it was and raises; the loop of [_drain_queue]
    ends there, with the contexts after [i] drained and not run. *)
Theorem exit_passes_the_handler w i ctx e namespace' heap' rest :
  contexts w !! i = Some ctx →
  py_exec (script ctx) (seed_namespace ctx) (heap w) = (Some e, namespace', heap') →
  isinstance_Exception e = false →
  ∃ w',
    _execute_context i w = (Raise e, w')
    ∧ contexts w' !! i =
        Some (Ctx (script ctx) (params ctx) (timeout ctx) (result ctx) (error ctx) true)
    ∧ for_each (i :: rest) _execute_context w = (Raise e, w')
    ∧ executed (trace w') = executed (trace w) ++ [i].
Proof.
  intros Hctx Hexec He.
  pose proof (execute_context_run w i ctx (Some e) namespace' heap' Hctx Hexec) as Hrun.
  unfold dispatch_outcome, dispatched in Hrun. rewrite He in Hrun.
  eexists. split; [exact Hrun|].
  split; [simpl; by rewrite lookup_insert_eq|]. split.
  - by rewrite for_each_cons, Hrun.
  - simpl. by rewrite executed_app.
Qed.

(** C8. [to_response] leaves the world as it is.  For a context whose error
    is a message, it returns the failure dict with that message; for one
    whose error is [None], the success dict with the result object of the
    context.  In every world the bridge can reach, an error is [None] or a
    message that is not empty. *)
Theorem to_response_reports_error_or_result w i ctx :
  contexts w !! i = Some ctx →
  (to_response i w).2 = w
  ∧ (∀ e, error ctx = Some e → e ≠ "" → to_response i w = (Return (Failure e), w))
  ∧ (error ctx = None → to_response i w = (Return (Success (result ctx)), w))
  ∧ (reachable w → error ctx ≠ Some "").
Proof.
  intros Hctx. split; [apply to_response_world|]. split; [|split].
  - intros e He Hne. unfold to_response, mbind, Py_bind, get_ctx.
    rewrite Hctx, He. simpl. by rewrite bool_decide_eq_false_2.
  - intros He. unfold to_response, mbind, Py_bind, get_ctx. by rewrite Hctx, He.
  - intros Hw. by apply (consistent_error _ _ (reachable_consistent w Hw) i).
Qed.

End Dispatcher.

(** ** Ticks and timeouts *)

Section Scheduler.
Context `{Host}.
Implicit Types (w : world) (i : cid) (ctx : ExecutionContext).

Lemma set_queue_same q w : set_queue q (queue q w) w = w.
Proof. by destruct q, w. Qed.

(** An empty lane: draining it changes nothing and runs nothing. *)
Lemma drain_queue_empty q w : queue q w = [] → _drain_queue q w = (Return tt, w).
Proof.
  intros Hq. rewrite drain_queue_run, Hq. simpl.
  by rewrite <-Hq, set_queue_same.
Qed.

(** What a tick runs is a first part of the editor lane's contexts followed
    by the game lane's, in that order. *)
Lemma tick_executed_prefix w :
  ∃ k, executed (trace (_on_slate_post_tick w).2)
       = executed (trace w) ++ take k (editor_queue w ++ game_queue w).
Proof.
  rewrite tick_run, (drain_queue_run Editor).
  destruct (for_each_executed (queue Editor w) (set_queue Editor [] w))
    as (He1 & Hg1 & k1 & Hk1 & Hall1).
  destruct (for_each (queue Editor w) _execute_context (set_queue Editor [] w))
    as [out1 w1]. cbn [fst snd queue set_queue editor_queue game_queue trace] in *.
  destruct out1 as [[]|e].
  - rewrite (drain_queue_run Game).
    destruct (for_each_executed (queue Game w1) (set_queue Game [] w1))
      as (_ & _ & k2 & Hk2 & _).
    cbn [fst snd queue set_queue editor_queue game_queue trace] in *.
    exists (length (editor_queue w) + k2).
    rewrite Hk2, Hg1, Hk1, (Hall1 eq_refl), firstn_all, <-app_assoc.
    by rewrite take_app_add.
  - exists (k1 `min` length (editor_queue w)). cbn [snd].
    rewrite Hk1, take_app_le by lia. f_equal.
    destruct (decide (k1 ≤ length (editor_queue w))).
    + by rewrite Nat.min_l.
    + rewrite Nat.min_r, firstn_all by lia. apply take_ge. lia.
Qed.


(** What [done.wait] gives for an unset flag and a timeout the lock takes. *)
Lemma Event_wait_false flag t w :
  Event_wait flag t w = (Return false, w)
  ↔ flag = false ∧ PrimFloat.ltb TIMEOUT_MAX t = false.
Proof.
  unfold Event_wait. destruct flag; [by split; [intros [=]|intros [[=] _]]|].
  destruct (PrimFloat.ltb TIMEOUT_MAX t); [by split; [intros [=]|intros [_ [=]]]|done].
Qed.

(** After [wait] on a context whose [done.wait] timed out. *)
Lemma wait_timed_out w i ctx :
  contexts w !! i = Some ctx →
  Event_wait (done ctx) (timeout ctx) w = (Return false, w) →
  wait i w =
    (Return i,
     set_contexts (<[i := Ctx (script ctx) (params ctx) (timeout ctx) (result ctx)
                           (Some (timeout_message (timeout ctx))) false]>
                     (contexts w)) w).
Proof.
  intros Hctx [Hd Ht]%Event_wait_false. by rewrite wait_run, Hctx, Hd, Ht.
Qed.



(** C9. For a context [i] of any world.  When its [done.wait] times out,
    [wait] stores the timeout message as its error, and from then on
    [to_response] reports a failure whatever the threads do next, a run of
    its payload that returns included.  [wait] writes in no other case: not
    when the flag is set, and not when [done.wait] raises for a timeout the
    lock does not take.  An error that is there is there after any steps.
    A run of [_execute_context] whose [exec] returns leaves the error as it
    was, while taking over the result; a run whose [exec] raises an
    [Exception] stores the traceback instead; a run whose [exec] raises past
    the handler leaves the error as it was. *)
Theorem error_is_never_cleared w i ctx :
  contexts w !! i = Some ctx →
  (Event_wait (done ctx) (timeout ctx) w = (Return false, w) →
   ∃ ctx1, contexts (wait i w).2 !! i = Some ctx1
     ∧ error ctx1 = Some (timeout_message (timeout ctx))
     ∧ ∀ l, ∃ e, to_response i (steps l (wait i w).2)
                 = (Return (Failure e), steps l (wait i w).2))
  ∧ (done ctx = true → wait i w = (Return i, w))
  ∧ (done ctx = false → PrimFloat.ltb TIMEOUT_MAX (timeout ctx) = true →
     ∃ x, exn_cls x = OverflowError ∧ wait i w = (Raise x, w))
  ∧ (∀ e l, error ctx = Some e →
       ∃ ctx' e', contexts (steps l w) !! i = Some ctx' ∧ error ctx' = Some e')
  ∧ (∀ namespace' heap',
       py_exec (script ctx) (seed_namespace ctx) (heap w) = (None, namespace', heap') →
       ∃ ctx', contexts (_execute_context i w).2 !! i = Some ctx'
         ∧ error ctx' = error ctx
         ∧ result ctx' = default (result ctx) (namespace' !! "result"))
  ∧ (∀ x namespace' heap',
       py_exec (script ctx) (seed_namespace ctx) (heap w) = (Some x, namespace', heap') →
       ∃ ctx', contexts (_execute_context i w).2 !! i = Some ctx'
         ∧ (isinstance_Exception x = true → error ctx' = Some (format_exc x))
         ∧ (isinstance_Exception x = false → error ctx' = error ctx)).
Proof.
  intros Hctx. split; [|split; [|split; [|split; [|split]]]].
  - intros Hto. rewrite (wait_timed_out w i ctx Hctx Hto). simpl.
    eexists. split; [apply lookup_insert_eq|]. split; [done|].
    intros l.
    match goal with |- context [steps l ?w1] =>
      destruct (steps_later l w1 i _ (lookup_insert_eq _ _ _))
        as (ctx' & Hctx' & _ & _ & _ & _ & _ & Htruthy) end.
    specialize (Htruthy eq_refl).
    unfold to_response, mbind, Py_bind, get_ctx. rewrite Hctx', Htruthy.
    destruct (error ctx'); [eauto|done].
  - intros Hd. by rewrite wait_run, Hctx, Hd.
  - intros Hd Ht. rewrite wait_run, Hctx, Hd, Ht.
    eexists. split; [|reflexivity]. reflexivity.
  - intros e l He.
    destruct (steps_later l w i ctx Hctx) as (ctx' & Hctx' & _ & _ & _ & _ & Hsome & _).
    destruct Hsome as [e' He']; [by rewrite He|]. eauto.
  - intros namespace' heap' Hexec.
    rewrite (execute_context_run w i ctx None namespace' heap' Hctx Hexec). simpl.
    eexists. split; [apply lookup_insert_eq|]. simpl.
    split; [done|by destruct (namespace' !! "result")].
  - intros x namespace' heap' Hexec.
    rewrite (execute_context_run w i ctx (Some x) namespace' heap' Hctx Hexec). simpl.
    eexists. split; [apply lookup_insert_eq|]. simpl.
    split; intros ->; done.
Qed.

End Scheduler.

(** ** The request handler *)

Section Listener.
Context `{Host}.
Implicit Types (w : world) (i : cid) (ctx : ExecutionContext).

(** C5, where the handler falls short of it.  A body that asks for an
    unknown mode and carries [null] as timeout, and a body that is a JSON
    list: [do_POST] raises, [TypeError] from [float] in the first case and
    [AttributeError] from [body.get] in the second, so it sends no reply at
    all; the world, both queues included, is as it was. *)
Theorem unknown_mode_can_end_without_reply w :
  do_POST (execute_request {[ "mode" := PStr "unknown"; "timeout" := PNone ]}) w
    = (Raise (PyExn TypeError "float() argument must be a string or a real number"), w)
  ∧ do_POST (Request "/execute" (inr (PList []))) w
    = (Raise (PyExn AttributeError "object has no attribute 'get'"), w).
Proof. split; reflexivity. Qed.

(** X3. [GET /health] replies 200 with the version and the length of each
    queue, any other path 404; neither changes the world. *)
Theorem health_reports_queue_lengths w :
  do_GET "/health" w
  = (Return (Reply 200 (Json (PDict
       {[ "status" := PStr "running";
          "version" := PStr "1.0.0";
          "editor_queue_size" := PInt (Z.of_nat (length (editor_queue w)));
          "game_queue_size" := PInt (Z.of_nat (length (game_queue w))) ]}))), w)
  ∧ (∀ path, path ≠ "/health" →
       do_GET path w
       = (Return (Reply 404 (Json (PDict {[ "error" := PStr "Not found" ]}))), w)).
Proof.
  split; [done|]. intros path Hpath. unfold do_GET.
  by rewrite bool_decide_eq_false_2.
Qed.

(** X1. A request that [do_POST] does not accept changes nothing: not the
    queues, not the contexts, not the objects. *)
Theorem unaccepted_request_changes_nothing req w :
  (do_POST_until_wait req w).2 = w
  ∨ ∃ i, (do_POST_until_wait req w).1 = Return (Waiting i).
Proof.
  destruct (post_cases req w) as [(out & -> & _)|(q & sc & pa & t & ->)]; eauto.
Qed.

(** X2. A body that could not be read or decoded, and a JSON object whose mode
    is neither lane while its timeout converts: the reply is 400 with
    [success] false and a message, and the world is as it was. *)
Theorem invalid_request_is_rejected w :
  (∀ e, do_POST (Request "/execute" (inl e)) w
        = (Return (Reply 400 (error_body ("Bad request: " +:+ e))), w))
  ∧ (∀ d t,
       py_float (default (PInt 30) (d !! "timeout")) = inr t →
       py_eq_str (default (PStr "editor") (d !! "mode")) "editor" = false →
       py_eq_str (default (PStr "editor") (d !! "mode")) "game" = false →
       do_POST (execute_request d) w
       = (Return (Reply 400 (error_body
            ("Unknown mode: " +:+ fmt (default (PStr "editor") (d !! "mode"))
             +:+ ". Use 'editor' or 'game'."))), w)).
Proof.
  split; [done|]. intros d t Ht He Hg.
  unfold do_POST, do_POST_until_wait, execute_request. simpl.
  unfold mbind, Py_bind, dict_get, float_. simpl.
  by rewrite Ht, He, Hg.
Qed.

(** C10. A request for [/execute] whose body is a JSON object without the
    key [mode], and whose timeout, given or defaulted, converts to a float:
    [do_POST] makes a context, pushes it at the tail of the editor lane,
    leaves the game lane alone and goes on to wait.  The script of the
    context is the one given, the empty string if none was; its parameters
    are those given, an empty dict if none were; its timeout is the one
    given, 30.0 if none was; its result is a new empty dict, its error [None]
    and its flag unset. *)
Theorem missing_fields_take_defaults w d t :
  d !! "mode" = None →
  py_float (default (PInt 30) (d !! "timeout")) = inr t →
  ∃ w' ctx,
    do_POST_until_wait (execute_request d) w
      = (Return (Waiting (fresh (dom (contexts w)))), w')
    ∧ contexts w !! fresh (dom (contexts w)) = None
    ∧ editor_queue w' = editor_queue w ++ [fresh (dom (contexts w))]
    ∧ game_queue w' = game_queue w
    ∧ contexts w' !! fresh (dom (contexts w)) = Some ctx
    ∧ script ctx = default (PStr "") (d !! "script")
    ∧ heap w' !! params ctx = Some (default (PDict ∅) (d !! "params"))
    ∧ timeout ctx = t
    ∧ heap w' !! result ctx = Some (PDict ∅)
    ∧ error ctx = None ∧ done ctx = false
    ∧ (d !! "script" = None → script ctx = PStr "")
    ∧ (d !! "params" = None → heap w' !! params ctx = Some (PDict ∅))
    ∧ (d !! "timeout" = None → timeout ctx = 30%float).
Proof.
  intros Hmode Ht.
  unfold do_POST_until_wait, execute_request. cbn [path decoded].
  rewrite bool_decide_eq_true_2 by done. cbn [negb].
  unfold dict_get. rewrite Hmode. cbn [default].
  unfold mbind, Py_bind, mret, Py_ret, float_. cbv beta iota.
  rewrite Ht. unfold mret, Py_ret. cbv beta iota.
  change (py_eq_str (PStr "editor") "editor") with true. cbn [negb orb]. cbv beta iota.
  rewrite new_ExecutionContext_run. cbv beta iota zeta.
  unfold queue_push. cbv beta iota. cbn [queue set_queue ThreadSafeQueue.push].
  cbn [editor_queue game_queue contexts heap trace].
  set (p := fresh (dom (heap w))).
  set (r := fresh (dom (<[p := default (PDict ∅) (d !! "params")]> (heap w)))).
  assert (Hpr : r ≠ p).
  { intros Heq. apply (is_fresh (dom (<[p := default (PDict ∅) (d !! "params")]> (heap w)))).
    fold r. rewrite Heq, dom_insert_L. set_solver. }
  do 2 eexists. split; [reflexivity|]. simpl.
  split; [apply not_elem_of_dom, is_fresh|].
  split; [done|]. split; [done|]. split; [apply lookup_insert_eq|]. simpl.
  split; [done|].
  split; [by rewrite lookup_insert_ne, lookup_insert_eq|].
  split; [done|]. split; [apply lookup_insert_eq|]. split; [done|]. split; [done|].
  split; [by intros ->|].
  split; [intros ->; by rewrite lookup_insert_ne, lookup_insert_eq|].
  intros Hnone. rewrite Hnone in Ht. simpl in Ht.
  by injection Ht as <-.
Qed.

End Listener.

(** ** The properties on the sample host *)

Section Samples.
#[local] Existing Instance sample_host.

(** A request whose handler is not overtaken by a tick times out. *)
Example post_without_tick :
  (do_POST store_request init_world).1
  = Return (Reply 200 (Outcome (Failure "Execution timed out after 30.0s") None)).
Proof. vm_compute. done. Qed.

(** After a tick the handlers of the two posted requests reply with the
    stored result and with the traceback. *)
Example post_then_tick :
  (do_POST_after_wait 0 (step Tick sample_world)).1
  = Return (Reply 200 (Outcome (Success 2) (Some (PDict {[ "x" := PInt 2 ]}))))
  ∧ (do_POST_after_wait 1 (step Tick sample_world)).1
    = Return (Reply 200 (Outcome
        (Failure (TRACEBACK_HEADER +:+ "ValueError: boom")) None)).
Proof. vm_compute. done. Qed.

Lemma sample_world_reachable : reachable sample_world.
Proof. apply steps_reachable, reachable_init. Qed.

Lemma done_is_set_exactly_once_witness :
  (∃ ctx', contexts (_execute_context 0 sample_world).2 !! 0 = Some ctx'
           ∧ done ctx' = true
           ∧ signalled (trace (_execute_context 0 sample_world).2)
             = signalled (trace sample_world) ++ [0])
  ∧ count 0 (signalled (trace sample_world)) = 0.
Proof.
  pose proof (done_is_set_exactly_once sample_world 0
    (Ctx (PStr "result['x']=1+1") 1 30 2 None false) eq_refl) as (Hrun & _ & Hcount).
  split; [exact Hrun|]. exact (proj2 (Hcount sample_world_reachable)).
Defined.


(** The editor lane of [fault_world] drained: context 1 raises, context 2
    is run all the same, and the handler of context 1 gets the traceback. *)
Example drain_fault_world :
  (_drain_queue Editor fault_world).1 = Return tt
  ∧ executed (trace (_drain_queue Editor fault_world).2) = [0; 1; 2]
  ∧ (do_POST_after_wait 1 (_drain_queue Editor fault_world).2).1
    = Return (Reply 200 (Outcome (Failure (TRACEBACK_HEADER +:+ "ValueError: boom")) None))
  ∧ (do_POST_after_wait 2 (_drain_queue Editor fault_world).2).1
    = Return (Reply 200 (Outcome (Success 6) (Some (PDict {[ "x" := PInt 2 ]})))).
Proof. vm_compute. done. Qed.



Lemma to_response_reports_error_or_result_witness :
  to_response 0 sample_world = (Return (Success 2), sample_world).
Proof.
  exact (proj1 (proj2 (proj2 (to_response_reports_error_or_result
    sample_world 0 (Ctx (PStr "result['x']=1+1") 1 30 2 None false) eq_refl))) eq_refl).
Defined.



Lemma error_is_never_cleared_witness :
  ∃ e, to_response 0
         (steps [Tick] (wait 0 sample_world).2)
       = (Return (Failure e),
          steps [Tick] (wait 0 sample_world).2).
Proof.
  set (ctx := Ctx (PStr "result['x']=1+1") 1 30 2 None false).
  assert (Hto : Event_wait (done ctx) (timeout ctx) sample_world
                = (Return false, sample_world)) by (vm_compute; reflexivity).
  destruct (proj1 (error_is_never_cleared sample_world 0 ctx eq_refl) Hto)
    as (ctx1 & _ & _ & Hperm).
  exact (Hperm [Tick]).
Defined.

(** Bodies without [mode] that are not enqueued: a [null] timeout, a timeout
    that is no number, and a body that is a list.  The handler raises and
    replies nothing; the world is as it was. *)
Lemma request_without_mode_can_be_dropped :
  do_POST (execute_request {[ "timeout" := PNone ]}) init_world
  = (Raise (PyExn TypeError "float() argument must be a string or a real number"),
     init_world)
  ∧ do_POST (execute_request {[ "timeout" := PStr "abc" ]}) init_world
    = (Raise (PyExn ValueError "could not convert string to float"), init_world)
  ∧ do_POST (Request "/execute" (inr (PList [PStr "script"]))) init_world
    = (Raise (PyExn AttributeError "object has no attribute 'get'"), init_world).
Proof. split; [|split]; vm_compute; reflexivity. Qed.

Lemma missing_fields_take_defaults_witness :
  ∃ w' ctx,
    do_POST_until_wait (execute_request ∅) init_world = (Return (Waiting 0), w')
    ∧ editor_queue w' = [0] ∧ game_queue w' = []
    ∧ contexts w' !! 0 = Some ctx
    ∧ script ctx = PStr "" ∧ heap w' !! params ctx = Some (PDict ∅)
    ∧ timeout ctx = 30%float.
Proof.
  assert (Ht0 : py_float (default (PInt 30) ((∅ : gmap string pyval) !! "timeout"))
                = inr 30%float) by (vm_compute; reflexivity).
  destruct (missing_fields_take_defaults init_world ∅ 30%float (lookup_empty _) Ht0)
    as (w' & ctx & Hrun & _ & He & Hg & Hctx & _ & _ & _ & _ & _ & _ & Hs & Hp & Ht).
  exists w', ctx. split; [exact Hrun|]. split; [exact He|]. split; [exact Hg|].
  split; [exact Hctx|]. split; [exact (Hs (lookup_empty _))|].
  split; [exact (Hp (lookup_empty _))|exact (Ht (lookup_empty _))].
Defined.

Lemma health_reports_queue_lengths_witness :
  do_GET "/nothing" sample_world
  = (Return (Reply 404 (Json (PDict {[ "error" := PStr "Not found" ]}))), sample_world).
Proof.
  exact (proj2 (health_reports_queue_lengths sample_world) "/nothing"
    ltac:(discriminate)).
Defined.

Lemma invalid_request_is_rejected_witness :
  do_POST (execute_request {[ "mode" := PStr "unknown" ]}) init_world
  = (Return (Reply 400 (error_body "Unknown mode: unknown. Use 'editor' or 'game'.")),
     init_world).
Proof.
  assert (Ht : py_float (default (PInt 30)
                 (({[ "mode" := PStr "unknown" ]} : gmap string pyval) !! "timeout"))
               = inr 30%float) by (vm_compute; reflexivity).
  assert (He : py_eq_str (default (PStr "editor")
                 (({[ "mode" := PStr "unknown" ]} : gmap string pyval) !! "mode")) "editor"
               = false) by (vm_compute; reflexivity).
  assert (Hg : py_eq_str (default (PStr "editor")
                 (({[ "mode" := PStr "unknown" ]} : gmap string pyval) !! "mode")) "game"
               = false) by (vm_compute; reflexivity).
  pose proof (proj2 (invalid_request_is_rejected init_world) _ _ Ht He Hg) as Hrej.
  rewrite Hrej. vm_compute. reflexivity.
Defined.

End Samples.

(** ** An exit on the exiting host *)

Section Exits.
#[local] Existing Instance exiting_host.

(** The loop over the editor lane of [exit_world]: context 0 exits, so
    context 1, drained with it, is not run. *)
Lemma exit_passes_the_handler_witness :
  ∃ w', for_each [0; 1] _execute_context (set_queue Editor [] exit_world)
        = (Raise (PyExn (NotAnException "SystemExit") "SystemExit"), w')
    ∧ executed (trace w') = executed (trace (set_queue Editor [] exit_world)) ++ [0].
Proof.
  set (ctx := Ctx (PStr "raise SystemExit") 1 30 2 None false).
  assert (Hctx : contexts (set_queue Editor [] exit_world) !! 0 = Some ctx)
    by (vm_compute; reflexivity).
  assert (Hexec : py_exec (script ctx) (seed_namespace ctx)
                    (heap (set_queue Editor [] exit_world))
                  = (Some (PyExn (NotAnException "SystemExit") "SystemExit"),
                     seed_namespace ctx, heap (set_queue Editor [] exit_world)))
    by (vm_compute; reflexivity).
  destruct (exit_passes_the_handler (set_queue Editor [] exit_world) 0 ctx _ _ _ [1]
              Hctx Hexec eq_refl) as (w' & _ & _ & Hloop & Hexd).
  exists w'. split; [exact Hloop|exact Hexd].
Defined.




End Exits.

(** * Further properties of the bridge *)

(** ** The queue: a batch *)

Section QueueBatches.
Context {A : Type}.
Import ThreadSafeQueue.

(** X12. Items pushed one after the other come back from the next [drain]
    in one list, behind what was queued before and in push order, and the
    queue starts over empty for the calls that follow. *)
Theorem pushes_then_drain_is_one_batch (xs : list A) (ops : list (op A)) (q : list A) :
  run (map Push xs ++ Drain :: ops) q
  = ((q ++ xs) :: (run ops init).1, (run ops init).2).
Proof.
  unfold init. revert q. induction xs as [|x xs IH]; intros q; simpl.
  - rewrite app_nil_r. by destruct (run ops []).
  - rewrite IH. unfold push. by rewrite <-app_assoc.
Qed.

End QueueBatches.

(** ** Frames: what a call leaves alone *)

Section Frames.
Context `{Host}.
Implicit Types (w : world) (i j : cid) (ctx : ExecutionContext).

(** X8. [_execute_context] on [i] changes no queue, makes and removes no
    context, leaves every other context as it is, and keeps the script, the
    parameters and the timeout of [i]. *)
Theorem dispatcher_touches_one_context w i :
  editor_queue (_execute_context i w).2 = editor_queue w
  ∧ game_queue (_execute_context i w).2 = game_queue w
  ∧ dom (contexts (_execute_context i w).2) = dom (contexts w)
  ∧ (∀ j, j ≠ i → contexts (_execute_context i w).2 !! j = contexts w !! j)
  ∧ (∀ ctx, contexts w !! i = Some ctx →
       ∃ ctx', contexts (_execute_context i w).2 !! i = Some ctx'
         ∧ script ctx' = script ctx ∧ params ctx' = params ctx
         ∧ timeout ctx' = timeout ctx).
Proof.
  destruct (execute_context_cases w i)
    as [(Hnone & e & ->)|(ctx & raised & ns' & h' & Hctx & _ & ->)]; simpl.
  - repeat split; try done. intros ctx Hctx. congruence.
  - split; [done|]. split; [done|]. split; [|split].
    + rewrite dom_insert_L. apply elem_of_dom_2 in Hctx.
      apply set_eq. intros j. rewrite elem_of_union, elem_of_singleton.
      split; [by intros [->|]|auto].
    + intros j Hj. by rewrite lookup_insert_ne.
    + intros ctx0 Hctx0. assert (ctx0 = ctx) as -> by congruence.
      eexists. by rewrite lookup_insert_eq.
Qed.

Lemma for_each_other_contexts items w j :
  j ∉ items →
  contexts (for_each items _execute_context w).2 !! j = contexts w !! j.
Proof.
  revert w. induction items as [|i items IH]; intros w Hj; [done|].
  apply not_elem_of_cons in Hj as [Hne Hj]. rewrite for_each_cons.
  destruct (dispatcher_touches_one_context w i) as (_ & _ & _ & Hother & _).
  specialize (Hother j Hne).
  destruct (_execute_context i w) as [[[]|e] w1]; simpl in *; [|done].
  by rewrite IH.
Qed.


End Frames.

(** ** Validation of a POST *)

Section Validation.
Context `{Host}.
Implicit Types (w : world) (i : cid).

Lemma py_eq_str_true v s : py_eq_str v s = true ↔ v = PStr s.
Proof.
  destruct v; simpl; try (split; [done|by intros [=]]).
  rewrite bool_decide_eq_true. split; [by intros ->|by intros [= ->]].
Qed.

Lemma classic_dict (v : pyval) : (∃ d, v = PDict d) ∨ (∀ d, v ≠ PDict d).
Proof. destruct v; eauto; by right. Qed.

Lemma mode_is_lane v :
  (py_eq_str v "editor" || py_eq_str v "game") = true ↔ ∃ q, v = PStr (lane_name q).
Proof.
  rewrite orb_true_iff, !py_eq_str_true. split.
  - intros [->| ->]; [by exists Editor|by exists Game].
  - intros [[] ->]; auto.
Qed.

(** X5. What [do_POST] does with a request, case by case and with no case
    left out.  A path other than [/execute]: 404.  A body that could not be
    read or decoded: 400.  A decoded body that is no JSON object: the call
    raises, no reply.  An object whose timeout does not convert to a float:
    the call raises, no reply.  An object whose mode is neither lane name:
    400.  Only in these five cases is nothing enqueued, and the world stays
    as it was.  Otherwise, that is for an object whose timeout converts and
    whose mode, given or defaulted to [editor], names a lane: a new context
    is pushed at the tail of that lane, the other lane is untouched, and the
    handler goes on to wait. *)
Theorem post_outcome_by_request req w :
  (path req ≠ "/execute"
   ∧ do_POST_until_wait req w
     = (Return (Replied (Reply 404 (Json (PDict {[ "error" := PStr "Not found" ]})))), w))
  ∨ (path req = "/execute" ∧ ∃ e,
       decoded req = inl e
       ∧ do_POST_until_wait req w
         = (Return (Replied (Reply 400 (error_body ("Bad request: " +:+ e)))), w))
  ∨ (path req = "/execute" ∧ ∃ body e,
       decoded req = inr body ∧ (∀ d, body ≠ PDict d)
       ∧ exn_cls e = AttributeError
       ∧ do_POST_until_wait req w = (Raise e, w))
  ∨ (path req = "/execute" ∧ ∃ d e,
       decoded req = inr (PDict d)
       ∧ py_float (default (PInt 30) (d !! "timeout")) = inl e
       ∧ do_POST_until_wait req w = (Raise e, w))
  ∨ (path req = "/execute" ∧ ∃ d t,
       decoded req = inr (PDict d)
       ∧ py_float (default (PInt 30) (d !! "timeout")) = inr t
       ∧ (∀ q, default (PStr "editor") (d !! "mode") ≠ PStr (lane_name q))
       ∧ do_POST_until_wait req w
         = (Return (Replied (Reply 400 (error_body
              ("Unknown mode: " +:+ fmt (default (PStr "editor") (d !! "mode"))
               +:+ ". Use 'editor' or 'game'.")))), w))
  ∨ (path req = "/execute" ∧ ∃ d t q w',
       decoded req = inr (PDict d)
       ∧ py_float (default (PInt 30) (d !! "timeout")) = inr t
       ∧ default (PStr "editor") (d !! "mode") = PStr (lane_name q)
       ∧ do_POST_until_wait req w = (Return (Waiting (fresh (dom (contexts w)))), w')
       ∧ queue q w' = queue q w ++ [fresh (dom (contexts w))]
       ∧ (∀ q', q' ≠ q → queue q' w' = queue q' w)
       ∧ contexts w' !! fresh (dom (contexts w))
         = Some (Ctx (default (PStr "") (d !! "script"))
                   (fresh (dom (heap w))) t
                   (fresh (dom (<[fresh (dom (heap w))
                                  := default (PDict ∅) (d !! "params")]> (heap w))))
                   None false)).
Proof.
  unfold do_POST_until_wait.
  case_bool_decide as Hpath; cbn [negb]; [|by left].
  right. destruct (decoded req) as [e|body] eqn:Hdec; [left; eauto|].
  right.
  destruct (classic_dict body) as [[d ->]|Hnd].
  2: { left. split; [done|].
       destruct body; try (eexists _, _; split; [done|]; split; [done|];
         split; [|reflexivity]; done).
       by destruct (Hnd d). }
  right. unfold dict_get.
  unfold mbind, Py_bind, mret, Py_ret, float_. cbv beta iota.
  destruct (py_float (default (PInt 30) (d !! "timeout"))) as [e|t] eqn:Ht;
    [left; eauto 10|].
  right. unfold mret, Py_ret. cbv beta iota.
  destruct (py_eq_str (default (PStr "editor") (d !! "mode")) "editor"
            || py_eq_str (default (PStr "editor") (d !! "mode")) "game") eqn:Hmode;
    cbn [negb]; cbv beta iota.
  - right. apply mode_is_lane in Hmode as [q Hq].
    destruct (accepted_world q (default (PStr "") (d !! "script"))
                (default (PDict ∅) (d !! "params")) t w) as (Hq1 & Hq2 & Hc & _ & _).
    split; [done|]. eexists d, t, q, _.
    split; [done|]. split; [done|]. split; [done|].
    split; [|split; [exact Hq1|split; [exact Hq2|]]].
    + rewrite Hq. rewrite new_ExecutionContext_run. cbv beta iota zeta.
      destruct q; reflexivity.
    + rewrite Hc. apply lookup_insert_eq.
  - left. split; [done|]. exists d, t. split; [done|]. split; [done|].
    split; [|done]. intros q Hq.
    assert (Htrue : (py_eq_str (default (PStr "editor") (d !! "mode")) "editor"
                     || py_eq_str (default (PStr "editor") (d !! "mode")) "game") = true)
      by (apply mode_is_lane; eauto).
    congruence.
Qed.

End Validation.

(** ** What a tick leaves *)

Section Ticks.
Context `{Host}.
Implicit Types (w : world) (i j : cid) (ctx : ExecutionContext).

(** The queues after a tick: the editor lane is empty; the game lane is
    empty when the editor batch returned, and as before otherwise. *)
Lemma tick_queues w :
  editor_queue (_on_slate_post_tick w).2 = []
  ∧ ((_on_slate_post_tick w).1 = Return tt → game_queue (_on_slate_post_tick w).2 = [])
  ∧ (game_queue (_on_slate_post_tick w).2 = []
     ∨ game_queue (_on_slate_post_tick w).2 = game_queue w).
Proof.
  rewrite tick_run, (drain_queue_run Editor).
  destruct (for_each_queues (queue Editor w) (set_queue Editor [] w)) as [He1 Hg1].
  destruct (for_each (queue Editor w) _execute_context (set_queue Editor [] w))
    as [[[]|e] w1]; cbn [fst snd set_queue editor_queue game_queue] in *.
  - rewrite (drain_queue_run Game).
    destruct (for_each_queues (queue Game w1) (set_queue Game [] w1)) as [He2 Hg2].
    cbn [set_queue editor_queue game_queue] in *.
    rewrite He2, Hg2, He1. auto.
  - rewrite He1, Hg1. split; [done|]. split; [done|auto].
Qed.

(** X7. After a tick the editor lane is empty, whether the tick returned or
    raised.  When the editor batch returned, the tick goes on to drain the
    game lane, which is empty afterwards, whether the game batch returned or
    raised.  When an exception ended the editor batch, the tick ends with it
    there, and the game lane has not been drained: it is as it was.  A tick
    that returned leaves nothing to do: the next tick, with nothing posted in
    between, returns with the world unchanged. *)
Theorem tick_empties_what_it_drains w :
  editor_queue (_on_slate_post_tick w).2 = []
  ∧ ((_drain_queue Editor w).1 = Return tt →
     _on_slate_post_tick w = _drain_queue Game (_drain_queue Editor w).2
     ∧ game_queue (_on_slate_post_tick w).2 = [])
  ∧ (∀ e, (_drain_queue Editor w).1 = Raise e →
       _on_slate_post_tick w = (Raise e, (_drain_queue Editor w).2)
       ∧ game_queue (_on_slate_post_tick w).2 = game_queue w)
  ∧ ((_on_slate_post_tick w).1 = Return tt →
     game_queue (_on_slate_post_tick w).2 = []
     ∧ _on_slate_post_tick (_on_slate_post_tick w).2
       = (Return tt, (_on_slate_post_tick w).2)).
Proof.
  destruct (tick_queues w) as (He & Hret & _). split; [done|].
  split; [|split].
  - intros Hr. rewrite tick_run. rewrite (drain_queue_run Editor) in *.
    destruct (for_each (queue Editor w) _execute_context (set_queue Editor [] w))
      as [[[]|e] w1]; [|done]. split; [done|]. cbn [snd].
    rewrite (drain_queue_run Game).
    destruct (for_each_queues (queue Game w1) (set_queue Game [] w1)) as [_ Hg].
    by rewrite Hg.
  - intros e Hr. rewrite tick_run. rewrite (drain_queue_run Editor) in *.
    destruct (for_each_queues (queue Editor w) (set_queue Editor [] w)) as [_ Hg].
    destruct (for_each (queue Editor w) _execute_context (set_queue Editor [] w))
      as [[[]|e'] w1]; [done|]. cbn [fst snd] in *. injection Hr as ->.
    split; [done|]. by rewrite Hg.
  - intros Hr. specialize (Hret Hr). split; [done|].
    rewrite tick_run, (drain_queue_empty Editor) by done.
    by apply (drain_queue_empty Game).
Qed.

(** X11. In every world the bridge can reach, no context is queued twice,
    in one lane or in both, and every queued context exists, has its flag
    unset, and has neither been run nor signalled. *)
Theorem queued_contexts_are_unrun_and_unique w :
  reachable w →
  NoDup (editor_queue w ++ game_queue w)
  ∧ (∀ i, i ∈ editor_queue w ++ game_queue w →
       ∃ ctx, contexts w !! i = Some ctx ∧ done ctx = false
         ∧ (i ∉ executed (trace w)) ∧ (i ∉ signalled (trace w))).
Proof.
  intros Hw. apply reachable_consistent in Hw as [Hnd Hq Hc _ _]. simpl in *.
  split; [done|]. intros i Hi. destruct (Hq i Hi) as (ctx & Hctx & Hd).
  exists ctx. split; [done|]. split; [done|].
  destruct (Hc i ctx Hctx) as [Hx Hs]. rewrite Hd in Hx, Hs.
  split; by apply count_zero.
Qed.


End Ticks.

(** ** Lost commands and harmless timeouts *)

Section Interference.
Context `{Host}.
Implicit Types (w : world) (i j : cid) (ctx : ExecutionContext).

Lemma tick_other_contexts w j :
  j ∉ editor_queue w ++ game_queue w →
  contexts (_on_slate_post_tick w).2 !! j = contexts w !! j.
Proof.
  intros Hj. apply not_elem_of_app in Hj as [He Hg].
  rewrite tick_run, (drain_queue_run Editor).
  pose proof (for_each_other_contexts (queue Editor w) (set_queue Editor [] w) j He) as H1.
  destruct (for_each_queues (queue Editor w) (set_queue Editor [] w)) as [_ Hg1].
  destruct (for_each (queue Editor w) _execute_context (set_queue Editor [] w))
    as [[[]|e] w1]; cbn [fst snd set_queue contexts game_queue] in *; [|done].
  rewrite (drain_queue_run Game), for_each_other_contexts.
  - exact H1.
  - change (queue Game w1) with (game_queue w1). by rewrite Hg1.
Qed.

(** One step keeps a context that is unset and in no queue as it is, but for
    its error, keeps it out of the queues and does not run it. *)
Lemma step_keeps_unqueued a w j ctx :
  contexts w !! j = Some ctx → done ctx = false →
  j ∉ editor_queue w ++ game_queue w →
  ∃ ctx', contexts (step a w) !! j = Some ctx'
    ∧ forget_error ctx' = forget_error ctx
    ∧ (j ∉ editor_queue (step a w) ++ game_queue (step a w))
    ∧ count j (executed (trace (step a w))) = count j (executed (trace w)).
Proof.
  intros Hctx Hd Hj. destruct a as [req| |i]; simpl.
  - destruct (post_cases req w) as [(out & -> & _)|(q & sc & pa & t & ->)];
      [by exists ctx|].
    destruct (accepted_world q sc pa t w) as (Hq & Hq' & Hc & Ht & Hfresh).
    set (i := fresh (dom (contexts w))) in *. set (w' := set_queue q _ _) in *.
    clearbody w' i. simpl. assert (i ≠ j) by congruence.
    exists ctx. rewrite Hc, lookup_insert_ne, Ht by done.
    split; [done|]. split; [done|]. split; [|done].
    change (editor_queue w') with (queue Editor w').
    change (game_queue w') with (queue Game w').
    destruct q.
    + rewrite Hq, (Hq' Game) by done. simpl.
      rewrite !not_elem_of_app, list_elem_of_singleton in *.
      destruct Hj. split; [split|]; [done|congruence|done].
    + rewrite Hq, (Hq' Editor) by done. simpl.
      rewrite !not_elem_of_app, list_elem_of_singleton in *.
      destruct Hj. split; [|split]; [done|done|congruence].
  - exists ctx. rewrite tick_other_contexts by done.
    split; [done|]. split; [done|].
    destruct (tick_queues w) as (He & _ & Hg).
    destruct (tick_executed_prefix w) as [k Hk]. split.
    + rewrite He. simpl. destruct Hg as [-> | ->]; [by intros ?%elem_of_nil|].
      apply not_elem_of_app in Hj. tauto.
    + rewrite Hk, count_app.
      assert (count j (take k (editor_queue w ++ game_queue w)) = 0) as ->; [|lia].
      apply count_zero. intros Hin. apply Hj.
      rewrite <-(take_drop k (editor_queue w ++ game_queue w)).
      apply elem_of_app. by left.
  - rewrite after_wait_world, wait_run.
    destruct (contexts w !! i) as [ctxi|] eqn:Hi; [|by exists ctx].
    destruct (done ctxi) eqn:Hdi; [by exists ctx|].
    destruct (PrimFloat.ltb TIMEOUT_MAX (timeout ctxi)); [by exists ctx|]. simpl.
    destruct (decide (i = j)) as [->|Hne].
    + assert (ctxi = ctx) as -> by congruence.
      eexists. rewrite lookup_insert_eq. split; [done|].
      split; [unfold forget_error; simpl; by rewrite Hd|done].
    + exists ctx. by rewrite lookup_insert_ne.
Qed.

(** X13. A context whose flag is unset and that is in neither queue, as are
    the contexts drained together with a payload that exited, is lost:
    whatever is posted, however often the host ticks and whichever waits
    return, it is never queued again, its payload is never run, its flag
    stays unset, and nothing but its error changes. *)
Theorem unqueued_context_is_never_run l w j ctx :
  contexts w !! j = Some ctx → done ctx = false →
  j ∉ editor_queue w ++ game_queue w →
  ∃ ctx', contexts (steps l w) !! j = Some ctx'
    ∧ done ctx' = false ∧ result ctx' = result ctx
    ∧ (j ∉ editor_queue (steps l w) ++ game_queue (steps l w))
    ∧ count j (executed (trace (steps l w))) = count j (executed (trace w)).
Proof.
  revert w ctx. induction l as [|a l IH]; intros w ctx Hctx Hd Hj.
  - exists ctx. done.
  - destruct (step_keeps_unqueued a w j ctx Hctx Hd Hj) as (ctx1 & H1 & Hf & Hj1 & Hc1).
    assert (Hd1 : done ctx1 = false).
    { apply (f_equal done) in Hf. simpl in Hf. congruence. }
    destruct (IH (step a w) ctx1 H1 Hd1 Hj1) as (ctx' & H' & Hd' & Hr' & Hj' & Hc').
    exists ctx'. simpl. split; [done|]. split; [done|]. split.
    + apply (f_equal result) in Hf. simpl in Hf. congruence.
    + split; [done|congruence].
Qed.

(** *** Worlds that differ in errors only *)

Lemma same_but_errors_refl w : same_but_errors w w.
Proof. by repeat split. Qed.

Lemma same_but_errors_lookup w1 w2 i :
  same_but_errors w1 w2 →
  forget_error <$> contexts w1 !! i = forget_error <$> contexts w2 !! i.
Proof. intros (_ & _ & _ & _ & Hc). by rewrite <-!lookup_fmap, Hc. Qed.

(** One run of the dispatcher does the same in both. *)
Lemma execute_context_same w1 w2 i :
  same_but_errors w1 w2 →
  (_execute_context i w1).1 = (_execute_context i w2).1
  ∧ same_but_errors (_execute_context i w1).2 (_execute_context i w2).2.
Proof.
  intros Hs. pose proof (same_but_errors_lookup w1 w2 i Hs) as Hl.
  destruct Hs as (He & Hg & Hh & Ht & Hc).
  destruct (execute_context_cases w1 i)
    as [(Hn1 & e1 & Hr1)|(ctx1 & r1 & n1 & h1 & Hc1 & Hx1 & Hr1)];
  destruct (execute_context_cases w2 i)
    as [(Hn2 & e2 & Hr2)|(ctx2 & r2 & n2 & h2 & Hc2 & Hx2 & Hr2)].
  - unfold _execute_context, mbind, Py_bind, get_ctx. rewrite Hn1, Hn2.
    by repeat split.
  - rewrite Hn1, Hc2 in Hl. done.
  - rewrite Hc1, Hn2 in Hl. done.
  - rewrite Hc1, Hc2 in Hl. simpl in Hl. injection Hl as Hs Hp Hti Hre Hdo.
    assert (Hseed : seed_namespace ctx1 = seed_namespace ctx2)
      by (unfold seed_namespace; congruence).
    rewrite Hseed, Hh, Hs, Hx2 in Hx1. injection Hx1 as <- <- <-.
    rewrite Hr1, Hr2. simpl. split; [done|].
    repeat split; simpl; try congruence.
    rewrite !fmap_insert, Hc. f_equal.
    unfold forget_error, dispatched. simpl. by rewrite Hs, Hp, Hti, Hre.
Qed.

Lemma for_each_same items w1 w2 :
  same_but_errors w1 w2 →
  (for_each items _execute_context w1).1 = (for_each items _execute_context w2).1
  ∧ same_but_errors (for_each items _execute_context w1).2
      (for_each items _execute_context w2).2.
Proof.
  revert w1 w2. induction items as [|i items IH]; intros w1 w2 Hs; [done|].
  rewrite !for_each_cons. destruct (execute_context_same w1 w2 i Hs) as [Ho Hw].
  destruct (_execute_context i w1) as [[[]|e1] v1],
    (_execute_context i w2) as [[[]|e2] v2]; simpl in *; try done.
  by apply IH.
Qed.

Lemma set_queue_same_but_errors q items w1 w2 :
  same_but_errors w1 w2 → same_but_errors (set_queue q items w1) (set_queue q items w2).
Proof. intros (? & ? & ? & ? & ?). by destruct q. Qed.

Lemma drain_queue_same q w1 w2 :
  same_but_errors w1 w2 →
  (_drain_queue q w1).1 = (_drain_queue q w2).1
  ∧ same_but_errors (_drain_queue q w1).2 (_drain_queue q w2).2.
Proof.
  intros Hs. rewrite !drain_queue_run.
  assert (queue q w1 = queue q w2) as -> by (destruct Hs as (? & ? & _); by destruct q).
  by apply for_each_same, set_queue_same_but_errors.
Qed.

Lemma tick_same w1 w2 :
  same_but_errors w1 w2 →
  (_on_slate_post_tick w1).1 = (_on_slate_post_tick w2).1
  ∧ same_but_errors (_on_slate_post_tick w1).2 (_on_slate_post_tick w2).2.
Proof.
  intros Hs. rewrite !tick_run.
  destruct (drain_queue_same Editor w1 w2 Hs) as [Ho Hw].
  destruct (_drain_queue Editor w1) as [[[]|e1] v1],
    (_drain_queue Editor w2) as [[[]|e2] v2]; simpl in *; try done.
  by apply drain_queue_same.
Qed.

Lemma wait_same i w : same_but_errors (wait i w).2 w.
Proof.
  rewrite wait_run. destruct (contexts w !! i) as [ctx|] eqn:Hctx;
    [|apply same_but_errors_refl].
  destruct (done ctx) eqn:Hd; [apply same_but_errors_refl|].
  destruct (PrimFloat.ltb TIMEOUT_MAX (timeout ctx)); [apply same_but_errors_refl|].
  repeat split; try done. simpl. rewrite fmap_insert.
  apply insert_id. rewrite lookup_fmap, Hctx. simpl.
  unfold forget_error. simpl. by rewrite Hd.
Qed.

(** X6. A [wait] that returns, timed out or not, changes nothing but an
    error, and errors do not reach the dispatcher: the tick that follows
    ends the same way, runs the same payloads on the same objects, and leaves
    the same queues, objects, results and flags as the tick would have
    without that return. *)
Theorem timeout_does_not_change_the_tick w i :
  same_but_errors (step (WaitReturns i) w) w
  ∧ (_on_slate_post_tick (step (WaitReturns i) w)).1 = (_on_slate_post_tick w).1
  ∧ trace (step Tick (step (WaitReturns i) w)) = trace (step Tick w)
  ∧ heap (step Tick (step (WaitReturns i) w)) = heap (step Tick w)
  ∧ editor_queue (step Tick (step (WaitReturns i) w)) = editor_queue (step Tick w)
  ∧ game_queue (step Tick (step (WaitReturns i) w)) = game_queue (step Tick w)
  ∧ (∀ j, result <$> contexts (step Tick (step (WaitReturns i) w)) !! j
          = result <$> contexts (step Tick w) !! j)
  ∧ (∀ j, done <$> contexts (step Tick (step (WaitReturns i) w)) !! j
          = done <$> contexts (step Tick w) !! j).
Proof.
  assert (Hs : same_but_errors (step (WaitReturns i) w) w).
  { simpl. rewrite after_wait_world. apply wait_same. }
  split; [done|]. destruct (tick_same _ _ Hs) as [Ho Hw]. split; [done|].
  change (step Tick ?v) with (_on_slate_post_tick v).2.
  pose proof Hw as (He & Hg & Hh & Ht & Hc).
  split; [done|]. split; [done|]. split; [done|]. split; [done|].
  split; intros j; pose proof (same_but_errors_lookup _ _ j Hw) as Hl;
    destruct (contexts (_on_slate_post_tick (step (WaitReturns i) w)).2 !! j) as [c1|],
      (contexts (_on_slate_post_tick w).2 !! j) as [c2|]; simpl in *; try done;
    injection Hl as Hs' Hp Hti Hre Hdo; congruence.
Qed.

End Interference.

(** ** The further properties on the sample hosts *)

Section MoreSamples.
#[local] Existing Instance sample_host.

Lemma queued_contexts_are_unrun_and_unique_witness :
  NoDup (editor_queue sample_world ++ game_queue sample_world)
  ∧ ∃ ctx, contexts sample_world !! 1 = Some ctx ∧ done ctx = false
      ∧ (1 ∉ executed (trace sample_world)) ∧ (1 ∉ signalled (trace sample_world)).
Proof.
  destruct (queued_contexts_are_unrun_and_unique sample_world sample_world_reachable)
    as [Hnd Hq].
  split; [exact Hnd|]. apply Hq. vm_compute. apply list_elem_of_further, list_elem_of_here.
Defined.


End MoreSamples.

Section MoreExits.
#[local] Existing Instance exiting_host.

(** On [exit_world] the editor batch ends with [SystemExit]: the tick ends
    there and the game lane is as it was. *)
Lemma tick_empties_what_it_drains_witness :
  _on_slate_post_tick exit_world
  = (Raise (PyExn (NotAnException "SystemExit") "SystemExit"),
     (_drain_queue Editor exit_world).2)
  ∧ game_queue (_on_slate_post_tick exit_world).2 = game_queue exit_world.
Proof.
  assert (Hr : (_drain_queue Editor exit_world).1
               = Raise (PyExn (NotAnException "SystemExit") "SystemExit"))
    by (vm_compute; reflexivity).
  exact (proj1 (proj2 (proj2 (tick_empties_what_it_drains exit_world))) _ Hr).
Defined.

(** Context 1 of [lost_world] after a post, two ticks and the return of its
    wait: still not run. *)
Lemma unqueued_context_is_never_run_witness :
  ∃ ctx', contexts (steps [Post store_request; Tick; WaitReturns 1; Tick] lost_world) !! 1
          = Some ctx'
    ∧ done ctx' = false
    ∧ count 1 (executed (trace (steps [Post store_request; Tick; WaitReturns 1; Tick]
                                  lost_world)))
      = count 1 (executed (trace lost_world)).
Proof.
  set (ctx := Ctx (PStr "result['x']=1+1") 3 30 4 None false).
  assert (Hctx : contexts lost_world !! 1 = Some ctx) by (vm_compute; reflexivity).
  assert (Hj : 1 ∉ editor_queue lost_world ++ game_queue lost_world).
  { vm_compute. intros Hin. apply list_elem_of_singleton in Hin. discriminate. }
  destruct (unqueued_context_is_never_run
              [Post store_request; Tick; WaitReturns 1; Tick] lost_world 1 ctx
              Hctx eq_refl Hj) as (ctx' & Hctx' & Hd & _ & _ & Hc).
  exists ctx'. split; [exact Hctx'|]. split; [exact Hd|exact Hc].
Defined.

End MoreExits.
